(** * The schematics [HostTree]: a virtual file tree staged over a backend

    A shallow embedding of
    [packages/angular_devkit/schematics/src/tree/host-tree.ts]
    ([HostDirEntry] and [HostTree]) together with the collaborators it
    calls into: paths, the recording host that keeps the pending changes
    of a tree, the merge strategy flags and the update recorder.

    Trees are JavaScript objects that reference one another (a branch
    keeps its parent's recording host as backend), so the embedding keeps
    every tree ever constructed in a store and threads that store through
    the operations. *)

From Stdlib Require Import ZArith Lia Ascii String.
From stdpp Require Import gmap strings list fin_maps.

Local Open Scope string_scope.

(** ** Paths *)

(** A normalized absolute path is kept as the list of its fragments, the
    root being the empty list: ["/a/b"] is [["a"; "b"]]. *)
Abbreviation PathFragment := string (only parsing).
Abbreviation Path := (list string) (only parsing).

(** Cut a string at every ["/"]. *)
Fixpoint split (s : string) : list string :=
  match s with
  | EmptyString => [EmptyString]
  | String c s' =>
      if Ascii.eqb c "/"%char then EmptyString :: split s'
      else match split s' with
           | [] => [String c EmptyString]
           | w :: ws => String c w :: ws
           end
  end.

Definition resolve_segment (acc : Path) (seg : string) : Path :=
  if String.eqb seg "" then acc
  else if String.eqb seg "." then acc
  else if String.eqb seg ".." then removelast acc
  else acc ++ [seg].

(** Modelled from the spec: [normalize] of [@angular-devkit/core] is not
    part of the sources at hand.  A path is absolute, ["/"]-delimited and
    normalized, with no ["."] or [".."] segment and no trailing slash. *)
Definition normalize (s : string) : Path :=
  fold_left resolve_segment (split s) [].

(** The string a normalized path stands for. *)
Definition path_string (p : Path) : string :=
  match p with
  | [] => "/"
  | _ => String.concat "" (map (String.append "/") p)
  end.

(** Modelled from the spec: [join] and [dirname] of [@angular-devkit/core]
    are not part of the sources at hand.  Paths are ["/"]-delimited:
    joining a normalized path and one fragment puts the fragment last. *)
Definition join (p : Path) (fragment : PathFragment) : Path := p ++ [fragment].

(** [dirname]; the root is its own parent. *)
Definition dirname (p : Path) : Path := removelast p.

(** [q] lies strictly below [p]. *)
Definition below (p q : Path) : bool :=
  bool_decide (p `prefix_of` q) && negb (bool_decide (p = q)).

(** A fragment that survives normalization unchanged. *)
Definition plain_fragment (f : string) : Prop :=
  f ≠ "" ∧ f ≠ "." ∧ f ≠ ".." ∧ split f = [f].

(** ** Contents and exceptions *)

(** A [Buffer] is a sequence of bytes, which is what a [string] is here;
    the [Buffer | string] arguments of the source are therefore one type
    and [new Buffer(content)] is the identity. *)
Abbreviation Buffer := string (only parsing).

(** Everything the code throws.  The exceptions carry the path they were
    built with as a string: some are built with a normalized [Path],
    [beginUpdate] builds one with the caller's own string. *)
Inductive Exception : Type :=
| PathIsDirectoryException (path : string)
| PathIsFileException (path : string)
| ContentHasMutatedException (path : string)
| FileAlreadyExistException (path : string)
| FileDoesNotExistException (path : string)
| InvalidUpdateRecordException
| MergeConflictException (path : string)
| SchematicsException (message : string)
| FileVisitorCancelToken
| VisitorException (message : string).

Global Instance Exception_eq_dec : EqDecision Exception.
Proof. solve_decision. Defined.

(** ** The recording host ([virtualFs.CordHost]) *)

(** One pending change.  [kind] is ['create'], ['overwrite'], ['rename']
    or ['delete'] in the source. *)
Inductive CordHostRecord : Type :=
| create_record (path : Path) (content : Buffer)
| overwrite_record (path : Path) (content : Buffer)
| rename_record (from to : Path)
| delete_record (path : Path).

(** The files a host shows: content by path. *)
Abbreviation FileMap := (gmap (list string) string) (only parsing).

(** Modelled from the spec: the recording host is not part of the sources
    at hand.  "Logical existence/content of a path = apply records in
    order on top of backend's view."  A create or an overwrite puts the
    content at the path; a delete takes the file at the path away; a
    rename moves the file at the path to the target.  The records of a
    log have passed the tests of [record_create], [record_overwrite],
    [record_rename] and [record_delete] below: a delete and a rename are
    of a file, an overwrite is of a file, a create is of a path that was
    not there.  The spec names no failure for a create below a file; the
    properties that depend on it are stated for paths with no file above
    them. *)
Definition apply_record (m : FileMap) (r : CordHostRecord) : FileMap :=
  match r with
  | create_record p c => <[p := c]> m
  | overwrite_record p c => <[p := c]> m
  | delete_record p => base.delete p m
  | rename_record from to =>
      match m !! from with
      | Some c => <[to := c]> (base.delete from m)
      | None => m
      end
  end.

Definition apply_records (rs : list CordHostRecord) (back : FileMap) : FileMap :=
  fold_left apply_record rs back.

(** Modelled from the spec: the queries of a host on the files it shows.
    A path is a file when it has content; "a directory exists if any path
    exists under it as a prefix"; a path exists as either. *)
Definition host_isFile (m : FileMap) (p : Path) : bool :=
  bool_decide (is_Some (m !! p)).

Definition host_isDirectory (m : FileMap) (p : Path) : bool :=
  existsb (below p) (map fst (map_to_list m)).

Definition host_exists (m : FileMap) (p : Path) : bool :=
  host_isFile m p || host_isDirectory m p.

Definition host_read (m : FileMap) (p : Path) : option Buffer := m !! p.

(** The fragment of [q] right below [p], when [q] lies strictly below. *)
Definition child_of (p q : Path) : option PathFragment :=
  if below p q then q !! length p else None.

(** Modelled from the spec: [list] gives the children of a path in the
    union of backend and pending changes, each once. *)
Definition host_list (m : FileMap) (p : Path) : list PathFragment :=
  remove_dups (omap (child_of p) (map fst (map_to_list m))).

(** ** The store of trees *)

(** What a tree's recording host reads through to: [new virtualFs.Empty()],
    some read-only host given by the caller (the files it shows), or the
    recording host of another tree, held by reference. *)
Inductive Backend : Type :=
| EmptyBackend
| HostBackend (shown : gmap (list string) string)
| RecordBackend (tree : nat).

(** [HostDirEntry]: the parent entry and the path.  The [_host] and
    [_tree] fields point back to the tree the entry was made by, which is
    the tree the operations below are given. *)
Inductive HostDirEntry : Type :=
| orphan_entry (path : list string)
| child_entry (parent : HostDirEntry) (path : list string).

Definition mkHostDirEntry (parent : option HostDirEntry) (path : Path) : HostDirEntry :=
  match parent with
  | None => orphan_entry path
  | Some e => child_entry e path
  end.

Definition dir_parent (e : HostDirEntry) : option HostDirEntry :=
  match e with
  | orphan_entry _ => None
  | child_entry parent _ => Some parent
  end.

Definition dir_path (e : HostDirEntry) : Path :=
  match e with
  | orphan_entry path => path
  | child_entry _ path => path
  end.

(** The state of one [HostTree].  Its [_id] is its position in the store:
    [_uniqueId++] numbers the trees in the order they are constructed.
    [_recordSync] is a synchronous face of [_record] with no state of its
    own. *)
Record HostTree : Type := mkHostTree {
  _backend : Backend;
  _record : list CordHostRecord;
  _dirCache : gmap (list string) HostDirEntry
}.

(** All trees constructed so far, the newest first; a tree is referred to
    by its id. *)
Abbreviation Store := (list HostTree) (only parsing).

Definition _uniqueId (σ : Store) : nat := length σ.

(** The files the recording host of tree [id] shows now: its records
    applied over what its backend shows now. *)
Fixpoint files (σ : Store) (id : nat) : FileMap :=
  match σ with
  | [] => ∅
  | t :: older =>
      if bool_decide (length older = id) then
        apply_records (_record t)
          match _backend t with
          | EmptyBackend => ∅
          | HostBackend shown => shown
          | RecordBackend parent => files older parent
          end
      else files older id
  end.

Fixpoint tree_at (σ : Store) (id : nat) : option HostTree :=
  match σ with
  | [] => None
  | t :: older => if bool_decide (length older = id) then Some t else tree_at older id
  end.

Fixpoint modify (f : HostTree → HostTree) (id : nat) (σ : Store) : Store :=
  match σ with
  | [] => []
  | t :: older =>
      if bool_decide (length older = id) then f t :: older
      else t :: modify f id older
  end.

Definition records (σ : Store) (id : nat) : list CordHostRecord :=
  from_option _record [] (tree_at σ id).

(** ** Computations that change the store and may throw *)

(** What a computation gives when run in a store: a value and the store
    it leaves, or an exception and the store as it was when the exception
    was thrown.  [Exhausted] stands for a recursion of the embedding that
    ran out of the steps it was given; only [_recurse] can give it, and
    [visit] is shown below never to. *)
Inductive Result (Σ A : Type) : Type :=
| Ok (a : A) (σ : Σ)
| Throw (e : Exception) (σ : Σ)
| Exhausted.
Arguments Ok {Σ A} a σ.
Arguments Throw {Σ A} e σ.
Arguments Exhausted {Σ A}.

Definition M (Σ A : Type) : Type := Σ → Result Σ A.

Definition ret {Σ A} (a : A) : M Σ A := λ σ, Ok a σ.

Definition throw {Σ A} (e : Exception) : M Σ A := λ σ, Throw e σ.

Definition bind {Σ A B} (k : A → M Σ B) (c : M Σ A) : M Σ B :=
  λ σ, match c σ with
       | Ok a σ' => k a σ'
       | Throw e σ' => Throw e σ'
       | Exhausted => Exhausted
       end.

Global Instance M_ret {Σ} : MRet (M Σ) := @ret Σ.
Global Instance M_bind {Σ} : MBind (M Σ) := @bind Σ.

Definition and_then {Σ A B} (c : M Σ A) (k : A → M Σ B) : M Σ B := bind k c.

Notation "'let!' x := c 'in' k" := (and_then c (λ x, k))
  (at level 10, x name, c at level 100, k at level 200).

(** Read something off the store. *)
Definition query {Σ A} (f : Σ → A) : M Σ A := λ σ, Ok (f σ) σ.

Definition update {Σ} (f : Σ → Σ) : M Σ unit := λ σ, Ok tt (f σ).

(** [Array.prototype.forEach]: the callback runs on each element in turn;
    an exception ends the loop. *)
Fixpoint forEach {Σ A} (l : list A) (callback : A → M Σ unit) : M Σ unit :=
  match l with
  | [] => ret tt
  | x :: l' => callback x ;; forEach l' callback
  end.

(** ** The recording host of a tree in the store *)

Definition record_isFile (this : nat) (p : Path) : M Store bool :=
  query (λ σ, host_isFile (files σ this) p).

Definition record_isDirectory (this : nat) (p : Path) : M Store bool :=
  query (λ σ, host_isDirectory (files σ this) p).

Definition record_exists (this : nat) (p : Path) : M Store bool :=
  query (λ σ, host_exists (files σ this) p).

Definition add_record (r : CordHostRecord) (t : HostTree) : HostTree :=
  mkHostTree (_backend t) (_record t ++ [r]) (_dirCache t).

Definition append_record (this : nat) (r : CordHostRecord) : M Store unit :=
  update (modify (add_record r) this).

(** Modelled from the spec: the changes a recording host takes.
    "[Create] fails if the path already resolves to existing content":
    [create] "fails with FileAlreadyExists if exists(path) is already
    true".  "[Overwrite]/[Delete]/[Rename]-source fail if the path does
    not currently resolve to a file", with [FileDoesNotExist];
    "[Rename]-target fails if it already exists".  Each appends its
    record.  For a rename whose source and target both fail the spec
    gives the two failures in this order and does not say which one is
    met first; no property below says which of the two is thrown then. *)
Definition record_create (this : nat) (p : Path) (content : Buffer) : M Store unit :=
  let! e := record_exists this p in
  if e then throw (FileAlreadyExistException (path_string p))
  else append_record this (create_record p content).

Definition record_overwrite (this : nat) (p : Path) (content : Buffer) : M Store unit :=
  let! f := record_isFile this p in
  if negb f then throw (FileDoesNotExistException (path_string p))
  else append_record this (overwrite_record p content).

Definition record_rename (this : nat) (from to : Path) : M Store unit :=
  let! f := record_isFile this from in
  if negb f then throw (FileDoesNotExistException (path_string from))
  else
    let! e' := record_exists this to in
    if e' then throw (FileAlreadyExistException (path_string to))
    else append_record this (rename_record from to).

Definition record_delete (this : nat) (p : Path) : M Store unit :=
  let! f := record_isFile this p in
  if negb f then throw (FileDoesNotExistException (path_string p))
  else append_record this (delete_record p).

(** [observable.subscribe()] with no handler, on what [_record.create]
    and [_record.overwrite] return: the change is made when the host
    takes it; when the host fails, the failure comes through the
    observable, which nothing listens to, so that the caller goes on as
    if the call had returned.  [_recordSync], which [delete] and [rename]
    go through, throws the failure to its caller. *)
Definition subscribe {Σ} (c : M Σ unit) : M Σ unit :=
  λ σ, match c σ with
       | Ok _ σ' => Ok tt σ'
       | Throw _ σ' => Ok tt σ'
       | Exhausted => Exhausted
       end.

Definition creates (p : Path) (r : CordHostRecord) : bool :=
  match r with create_record q _ => bool_decide (q = p) | _ => false end.

Definition overwrites (p : Path) (r : CordHostRecord) : bool :=
  match r with overwrite_record q _ => bool_decide (q = p) | _ => false end.

Definition renames (p : Path) (r : CordHostRecord) : bool :=
  match r with rename_record q _ => bool_decide (q = p) | _ => false end.

Definition deletes (p : Path) (r : CordHostRecord) : bool :=
  match r with delete_record q => bool_decide (q = p) | _ => false end.

(** Modelled from the spec: [willCreate], [willOverwrite], [willRename]
    and [willDelete] are "pure predicates over pending records": a record
    of that kind for the path is in the log. *)
Definition willCreate (this : nat) (p : Path) : M Store bool :=
  query (λ σ, existsb (creates p) (records σ this)).

Definition willOverwrite (this : nat) (p : Path) : M Store bool :=
  query (λ σ, existsb (overwrites p) (records σ this)).

Definition willRename (this : nat) (p : Path) : M Store bool :=
  query (λ σ, existsb (renames p) (records σ this)).

Definition willDelete (this : nat) (p : Path) : M Store bool :=
  query (λ σ, existsb (deletes p) (records σ this)).

(** ** File entries and update recorders *)

(** Modelled from the spec: [LazyFileEntry] is not part of the sources at
    hand.  A file entry carries its path and its content; "content
    accessor is lazy", read from the recording host when the entry is
    first used.  Every use below comes right after the entry is made,
    with no change in between, so the content is kept as it is then. *)
Record FileEntry : Type := LazyFileEntry {
  entry_path : list string;
  entry_content : string
}.

(** Modelled from the spec: the patch operations of an update recorder,
    [InsertLeft(offset, bytes)], [InsertRight(offset, bytes)] and
    [Remove(offset, length)]. *)
Inductive Patch : Type :=
| InsertLeft (offset : nat) (bytes : Buffer)
| InsertRight (offset : nat) (bytes : Buffer)
| Remove (offset : nat) (length : nat).

(** Modelled from the spec: [UpdateRecorderBase] is not part of the
    sources at hand.  An update recorder is a "target path" and an
    "ordered list of patch operations". *)
Record UpdateRecorderBase : Type := mkUpdateRecorderBase {
  recorder_path : list string;
  recorder_patches : list Patch
}.

(** An [UpdateRecorder] handed to [commitUpdate] is an
    [UpdateRecorderBase] or some other implementation of the interface. *)
Inductive UpdateRecorder : Type :=
| recorder_base (r : UpdateRecorderBase)
| recorder_foreign.

Definition createFromFileEntry (entry : FileEntry) : UpdateRecorderBase :=
  mkUpdateRecorderBase (entry_path entry) [].

Definition insertLeft (offset : nat) (bytes : Buffer) (r : UpdateRecorderBase) :=
  mkUpdateRecorderBase (recorder_path r) (recorder_patches r ++ [InsertLeft offset bytes]).

Definition insertRight (offset : nat) (bytes : Buffer) (r : UpdateRecorderBase) :=
  mkUpdateRecorderBase (recorder_path r) (recorder_patches r ++ [InsertRight offset bytes]).

Definition remove (offset len : nat) (r : UpdateRecorderBase) :=
  mkUpdateRecorderBase (recorder_path r) (recorder_patches r ++ [Remove offset len]).

Definition lefts_at (i : nat) (ps : list Patch) : string :=
  String.concat ""
    (omap (λ p, match p with
                | InsertLeft o b => if bool_decide (o = i) then Some b else None
                | _ => None
                end) ps).

Definition rights_at (i : nat) (ps : list Patch) : string :=
  String.concat ""
    (omap (λ p, match p with
                | InsertRight o b => if bool_decide (o = i) then Some b else None
                | _ => None
                end) ps).

Definition removed_at (i : nat) (ps : list Patch) : bool :=
  existsb (λ p, match p with
                | Remove o l => bool_decide (o ≤ i < o + l)
                | _ => false
                end) ps.

(** Modelled from the spec: "walk content byte-by-byte from 0; at each
    offset, first emit all queued insertLeft insertions registered at
    that offset in the order they were recorded, then the original byte
    unless it falls inside an active remove range, then emit all
    insertRight insertions registered at that offset".  The offset right
    after the last byte takes insertions too. *)
Fixpoint walk (ps : list Patch) (i : nat) (content : string) : string :=
  match content with
  | EmptyString => lefts_at i ps ++ rights_at i ps
  | String b rest =>
      lefts_at i ps
      ++ (if removed_at i ps then "" else String b "")
      ++ rights_at i ps
      ++ walk ps (S i) rest
  end.

Definition recorder_apply (r : UpdateRecorderBase) (content : Buffer) : Buffer :=
  walk (recorder_patches r) 0 content.

(** ** Actions and merge strategies *)

(** Modelled from the spec: the action types are declared outside the
    sources at hand.  An action is "a Record plus its originating Tree id
    and a parent linkage field": who made it ([id]), the [parent] field,
    and the change itself ([kind] ['c'], ['o'], ['r'] or ['d'] with its
    path and its content or target). *)
Inductive ActionBody : Type :=
| CreateFileAction (path : list string) (content : string)
| OverwriteFileAction (path : list string) (content : string)
| RenameFileAction (path to : list string)
| DeleteFileAction (path : list string).

Record Action : Type := mkAction {
  id : nat;
  parent : nat;
  body : ActionBody
}.

(** Modelled from the spec: [clean] of [@angular-devkit/core] is not part
    of the sources at hand; it drops the entries for which the mapping
    gave no action ([undefined]). *)
Definition clean {A} (l : list (option A)) : list A := omap (λ x, x) l.

(** ** [HostTree] *)

(** [new HostTree(backend)]: the new tree takes the next id, starts with
    no record and an empty directory cache. *)
Definition new_HostTree (backend : Backend) : M Store nat :=
  λ σ, Ok (_uniqueId σ) (mkHostTree backend [] ∅ :: σ).

Definition _normalizePath (path : string) : Path := normalize ("/" ++ path).

(** [branch]: a new tree whose backend is this tree's [_record], the
    object itself. *)
Definition branch (this : nat) : M Store nat := new_HostTree (RecordBackend this).

(** The methods that take a path normalize it first.  Where the source
    hands them a path that is normalized already (a [Path] of an entry,
    of a recorder or of an action, on which [normalize] changes nothing),
    the part after the normalization is called: [get_at] for [get], and
    so on. *)
Definition exists_ (this : nat) (path : string) : M Store bool :=
  record_isFile this (_normalizePath path).

Definition get_at (this : nat) (p : Path) : M Store (option FileEntry) :=
  let! d := record_isDirectory this p in
  if d then throw (PathIsDirectoryException (path_string p))
  else
    let! e := record_exists this p in
    if negb e then ret None
    else
      let! content := query (λ σ, default "" (host_read (files σ this) p)) in
      ret (Some (LazyFileEntry p content)).

Definition get (this : nat) (path : string) : M Store (option FileEntry) :=
  get_at this (_normalizePath path).

Definition read (this : nat) (path : string) : M Store (option Buffer) :=
  let! entry := get this path in
  ret (match entry with Some e => Some (entry_content e) | None => None end).

Definition cache_lookup (σ : Store) (this : nat) (p : Path) : option HostDirEntry :=
  match tree_at σ this with
  | Some t => _dirCache t !! p
  | None => None
  end.

Definition cached (this : nat) (p : Path) : M Store (option HostDirEntry) :=
  query (λ σ, cache_lookup σ this p).

Definition add_cached (p : Path) (e : HostDirEntry) (t : HostTree) : HostTree :=
  mkHostTree (_backend t) (_record t) (<[p := e]> (_dirCache t)).

Definition cache (this : nat) (p : Path) (e : HostDirEntry) : M Store unit :=
  update (modify (add_cached p e) this).

(** [getDir], by the fragments of the path read backwards so that the
    call on the parent directory is a call on the tail; the root is the
    directory that is its own [dirname]. *)
Fixpoint getDir_rev (this : nat) (rev_p : list string) : M Store HostDirEntry :=
  let p := rev rev_p in
  let! f := record_isFile this p in
  if f then throw (PathIsFileException (path_string p))
  else
    let! maybeCache := cached this p in
    match maybeCache with
    | Some e => ret e
    | None =>
        let! parent :=
          match rev_p with
          | [] => ret None
          | _ :: rev_parent =>
              let! e := getDir_rev this rev_parent in ret (Some e)
          end in
        let e := mkHostDirEntry parent p in
        cache this p e ;; ret e
    end.

Definition getDir_at (this : nat) (p : Path) : M Store HostDirEntry :=
  getDir_rev this (rev p).

Definition getDir (this : nat) (path : string) : M Store HostDirEntry :=
  getDir_at this (_normalizePath path).

Definition root (this : nat) : M Store HostDirEntry := getDir this "/".

(** ** [HostDirEntry] *)

Definition subdirs (this : nat) (entry : HostDirEntry) : M Store (list PathFragment) :=
  query (λ σ, List.filter
                (λ fragment, host_isDirectory (files σ this) (join (dir_path entry) fragment))
                (host_list (files σ this) (dir_path entry))).

Definition subfiles (this : nat) (entry : HostDirEntry) : M Store (list PathFragment) :=
  query (λ σ, List.filter
                (λ fragment, host_isFile (files σ this) (join (dir_path entry) fragment))
                (host_list (files σ this) (dir_path entry))).

Definition dir (this : nat) (entry : HostDirEntry) (name : PathFragment) : M Store HostDirEntry :=
  getDir_at this (join (dir_path entry) name).

Definition file (this : nat) (entry : HostDirEntry) (name : PathFragment) : M Store (option FileEntry) :=
  get_at this (join (dir_path entry) name).

(** A [FileVisitor] is a callback with a state of its own (what its
    closure holds); a call changes that state and may throw.  Visitors
    that change trees while they are called are left out. *)
Definition FileVisitor (S : Type) : Type :=
  list string → option FileEntry → S → S * option Exception.

(** A computation on the store, run beside the visitor's state. *)
Definition lift {S A} (c : M Store A) : M (Store * S) A :=
  λ w, match c w.1 with
       | Ok a σ => Ok a (σ, w.2)
       | Throw e σ => Throw e (σ, w.2)
       | Exhausted => Exhausted
       end.

Definition call {S} (visitor : FileVisitor S) (p : Path) (entry : option FileEntry)
  : M (Store * S) unit :=
  λ w, match visitor p entry w.2 with
       | (s, None) => Ok tt (w.1, s)
       | (s, Some e) => Throw e (w.1, s)
       end.

(** [_recurse] of [HostDirEntry.visit].  The source recurses for as long
    as there are directories below; [fuel] bounds the depth here, and
    [dir_visit] gives it more than the deepest file needs. *)
Fixpoint _recurse {S} (fuel : nat) (this : nat) (visitor : FileVisitor S)
    (entry : HostDirEntry) : M (Store * S) unit :=
  match fuel with
  | 0 => λ _, Exhausted
  | Datatypes.S fuel' =>
      let! fs := lift (subfiles this entry) in
      forEach fs (λ path,
        let! f := lift (file this entry path) in
        call visitor (join (dir_path entry) path) f) ;;
      let! ds := lift (subdirs this entry) in
      forEach ds (λ path,
        let! d := lift (dir this entry path) in
        _recurse fuel' this visitor d)
  end.

(** [try { ... } catch (e) { if (e !== FileVisitorCancelToken) throw e }] *)
Definition catch_cancel {Σ} (c : M Σ unit) : M Σ unit :=
  λ σ, match c σ with
       | Throw e σ' =>
           if bool_decide (e = FileVisitorCancelToken) then Ok tt σ' else Throw e σ'
       | r => r
       end.

(** The length of the longest path with a file. *)
Definition depth (m : FileMap) : nat :=
  foldr Nat.max 0 (map (λ kv, length kv.1) (map_to_list m)).

Definition dir_visit {S} (this : nat) (entry : HostDirEntry) (visitor : FileVisitor S)
  : M (Store * S) unit :=
  λ w, catch_cancel (_recurse (Datatypes.S (depth (files w.1 this))) this visitor entry) w.

Definition visit {S} (this : nat) (visitor : FileVisitor S) : M (Store * S) unit :=
  let! r := lift (root this) in dir_visit this r visitor.

(** ** Changing a tree *)

(** [overwrite] and [create] test [_recordSync.exists] themselves, throw
    on their own, and then subscribe to the change of [_record];
    [delete] and [rename] go through [_recordSync], which throws what the
    host fails with. *)
Definition overwrite_at (this : nat) (p : Path) (content : Buffer) : M Store unit :=
  let! e := record_exists this p in
  if negb e then throw (FileDoesNotExistException (path_string p))
  else subscribe (record_overwrite this p content).

Definition overwrite (this : nat) (path : string) (content : Buffer) : M Store unit :=
  overwrite_at this (_normalizePath path) content.

Definition beginUpdate (this : nat) (path : string) : M Store UpdateRecorder :=
  let! entry := get this path in
  match entry with
  | None => throw (FileDoesNotExistException path)
  | Some e => ret (recorder_base (createFromFileEntry e))
  end.

Definition commitUpdate (this : nat) (record : UpdateRecorder) : M Store unit :=
  match record with
  | recorder_base r =>
      let path := recorder_path r in
      let! entry := get_at this path in
      match entry with
      | None => throw (ContentHasMutatedException (path_string path))
      | Some e =>
          let newContent := recorder_apply r (entry_content e) in
          overwrite_at this path newContent
      end
  | recorder_foreign => throw InvalidUpdateRecordException
  end.

Definition create (this : nat) (path : string) (content : Buffer) : M Store unit :=
  let p := _normalizePath path in
  let! e := record_exists this p in
  if e then throw (FileAlreadyExistException (path_string p))
  else subscribe (record_create this p content).

Definition delete (this : nat) (path : string) : M Store unit :=
  record_delete this (_normalizePath path).

Definition rename_at (this : nat) (from to : Path) : M Store unit :=
  record_rename this from to.

Definition rename (this : nat) (from to : string) : M Store unit :=
  rename_at this (_normalizePath from) (_normalizePath to).

Definition apply (this : nat) (action : Action) (strategy : option Z) : M Store unit :=
  throw (SchematicsException "Apply not implemented on host trees.").

Definition action_of (this : nat) (record : CordHostRecord) : option Action :=
  match record with
  | create_record path content => Some (mkAction this 0 (CreateFileAction path content))
  | overwrite_record path content => Some (mkAction this 0 (OverwriteFileAction path content))
  | rename_record from to => Some (mkAction this 0 (RenameFileAction from to))
  | delete_record path => Some (mkAction this 0 (DeleteFileAction path))
  end.

Definition actions (this : nat) : M Store (list Action) :=
  query (λ σ, clean (map (action_of this) (records σ this))).

(** ** Merging *)

Section Merge.

(** The [MergeStrategy] enumeration is declared outside the sources at
    hand.  Its allowances are bit flags: each is [1 << b] for a bit [b]
    of its own.  A strategy is a small non-negative number, on which
    [&] is [Z.land]. *)
Variables overwriteBit creationBit deleteBit : Z.

Definition AllowOverwriteConflict : Z := Z.shiftl 1 overwriteBit.
Definition AllowCreationConflict : Z := Z.shiftl 1 creationBit.
Definition AllowDeleteConflict : Z := Z.shiftl 1 deleteBit.

Definition creationConflictAllowed (strategy : Z) : bool :=
  Z.eqb (Z.land strategy AllowCreationConflict) AllowCreationConflict.

Definition overwriteConflictAllowed (strategy : Z) : bool :=
  Z.eqb (Z.land strategy AllowOverwriteConflict) AllowOverwriteConflict.

Definition deleteConflictAllowed (strategy : Z) : bool :=
  Z.eqb (Z.land strategy AllowOverwriteConflict) AllowDeleteConflict.

(** The body of the loop over the other tree's actions. *)
Definition merge_action (this : nat) (strategy : Z) (action : Action) : M Store unit :=
  if bool_decide (id action = this) then ret tt
  else
    match body action with
    | CreateFileAction path content =>
        let! c := willCreate this path in
        let! o := willOverwrite this path in
        if c || o then
          if negb (creationConflictAllowed strategy)
          then throw (MergeConflictException (path_string path))
          else subscribe (record_overwrite this path content)
        else subscribe (record_create this path content)
    | OverwriteFileAction path content =>
        let! o := willOverwrite this path in
        if o && negb (overwriteConflictAllowed strategy)
        then throw (MergeConflictException (path_string path))
        else subscribe (record_overwrite this path content)
    | RenameFileAction path to =>
        let! r := willRename this path in
        if r then throw (MergeConflictException (path_string path))
        else rename_at this path to
    | DeleteFileAction path =>
        let! d := willDelete this path in
        if d && negb (deleteConflictAllowed strategy)
        then throw (MergeConflictException (path_string path))
        else record_delete this path
    end.

Definition merge_actions (this : nat) (strategy : Z) (acts : list Action) : M Store unit :=
  forEach acts (merge_action this strategy).

Definition merge (this other : nat) (strategy : Z) : M Store unit :=
  if bool_decide (other = this) then ret tt
  else
    let! acts := actions other in
    merge_actions this strategy acts.

End Merge.

(** Modelled from the spec: [MergeStrategy.Default], the value [merge]
    takes when no strategy is given, is the "strict no conflicts allowed
    default": no allowance. *)
Definition Default : Z := 0.

(** ** Notions the properties are stated with *)

Local Open Scope list_scope.
Local Open Scope nat_scope.

(** The store a computation leaves, whether it returns or throws. *)
Definition final {Σ A} (r : Result Σ A) (σ : Σ) : Σ :=
  match r with
  | Ok _ σ' => σ'
  | Throw _ σ' => σ'
  | Exhausted => σ
  end.

(** A computation keeps a relation when the store it leaves is related
    to the store it was run in, whether it returns or throws. *)
Definition keeps (R : list HostTree → list HostTree → Prop) {A} (c : M Store A) : Prop :=
  ∀ σ, match c σ with
       | Ok _ σ' => R σ σ'
       | Throw _ σ' => R σ σ'
       | Exhausted => True
       end.

Definition add_records (rs : list CordHostRecord) (t : HostTree) : HostTree :=
  mkHostTree (_backend t) (_record t ++ rs) (_dirCache t).

(** [σ'] is [σ] with records appended to tree [id] and nothing else
    changed. *)
Definition appends (id : nat) (σ σ' : Store) : Prop :=
  ∃ rs, σ' = modify (add_records rs) id σ.

(** A change made through the methods of a tree. *)
Inductive Mutation : Type :=
| Create (path : string) (content : string)
| Overwrite (path : string) (content : string)
| Delete (path : string)
| Rename (from to : string)
| CommitUpdate (record : UpdateRecorder)
| Merge (other : nat) (strategy : Z).

Section Branches.

Variables overwriteBit creationBit deleteBit : Z.

Definition perform (this : nat) (change : Mutation) : M Store unit :=
  match change with
  | Create path content => create this path content
  | Overwrite path content => overwrite this path content
  | Delete path => delete this path
  | Rename from to => rename this from to
  | CommitUpdate record => commitUpdate this record
  | Merge other strategy => merge overwriteBit creationBit deleteBit this other strategy
  end.

(** The store after a run of changes, each on the tree named with it;
    a change that throws leaves the store as it was when it threw and the
    run goes on. *)
Fixpoint after (changes : list (nat * Mutation)) (σ : Store) : Store :=
  match changes with
  | [] => σ
  | (this, change) :: rest => after rest (final (perform this change σ) σ)
  end.

End Branches.

(** What a caller sees of a path in a tree: the outcomes of [exists] and
    of [read]. *)
Definition outcome {Σ A} (r : Result Σ A) : option (A + Exception) :=
  match r with
  | Ok a _ => Some (inl a)
  | Throw e _ => Some (inr e)
  | Exhausted => None
  end.

Definition observe (σ : Store) (this : nat) (path : string)
  : option (bool + Exception) * option (option Buffer + Exception) :=
  (outcome (exists_ this path σ), outcome (read this path σ)).

(** The files right in a directory and the directories right in it, as
    [subfiles] and [subdirs] list them. *)
Definition dir_files (m : FileMap) (p : Path) : list PathFragment :=
  List.filter (λ fragment, host_isFile m (join p fragment)) (host_list m p).

Definition dir_dirs (m : FileMap) (p : Path) : list PathFragment :=
  List.filter (λ fragment, host_isDirectory m (join p fragment)) (host_list m p).

Fixpoint visit_order (fuel : nat) (m : FileMap) (p : Path) : list Path :=
  match fuel with
  | 0 => []
  | Datatypes.S fuel' =>
      map (join p) (dir_files m p)
      ++ flat_map (λ d, visit_order fuel' m (join p d)) (dir_dirs m p)
  end.

(** The files below a directory in the order a visit takes them. *)
Definition order (m : FileMap) (p : Path) : list Path :=
  visit_order (Datatypes.S (depth m - length p)) m p.

(** The entry a visitor is handed for a file. *)
Definition entry_of (m : FileMap) (p : Path) : option FileEntry :=
  Some (LazyFileEntry p (default "" (m !! p))).

(** The visitor called on the files of a list in turn, up to the first
    call that throws: the visitor's state at the end and what was
    thrown. *)
Fixpoint run_visitor {S} (visitor : FileVisitor S) (m : FileMap) (l : list Path) (s : S)
  : S * option Exception :=
  match l with
  | [] => (s, None)
  | p :: l' =>
      match visitor p (entry_of m p) s with
      | (s', None) => run_visitor visitor m l' s'
      | (s', Some e) => (s', Some e)
      end
  end.

(** A visitor that also keeps the list of the paths it was called on. *)
Definition traced {S} (visitor : FileVisitor S) : FileVisitor (S * list Path) :=
  λ p entry s,
    match visitor p entry s.1 with
    | (s', thrown) => ((s', s.2 ++ [p]), thrown)
    end.

(** No file lies below another file, and the root is no file. *)
Definition well_formed (m : FileMap) : Prop :=
  m !! [] = None ∧ ∀ p, is_Some (m !! p) → host_isDirectory m p = false.

(** A new file may be put at the path: the path is not the root, nothing
    is at it or below it, and no file lies above it. *)
Definition room_for (m : FileMap) (p : Path) : Prop :=
  p ≠ [] ∧ host_exists m p = false ∧ ∀ q, below q p = true → m !! q = None.

(** Every cached directory entry is the entry of the path it is cached
    for. *)
Definition cache_ok (σ : Store) (this : nat) : Prop :=
  ∀ t q e, tree_at σ this = Some t → _dirCache t !! q = Some e → dir_path e = q.

(** The trees show the same files in both stores. *)
Definition same_files (σ σ' : Store) : Prop := ∀ id, files σ' id = files σ id.

Definition result_of {S} (r : S * option Exception) (σ : Store)
  : Result (Store * S) unit :=
  match r with
  | (s, None) => Ok tt (σ, s)
  | (s, Some e) => Throw e (σ, s)
  end.

(** The callbacks of the two loops of [_recurse]. *)
Definition visit_file {S} (this : nat) (visitor : FileVisitor S)
    (entry : HostDirEntry) (path : PathFragment) : M (Store * S) unit :=
  let! f := lift (file this entry path) in
  call visitor (join (dir_path entry) path) f.

Definition visit_dir {S} (this : nat) (rec : HostDirEntry → M (Store * S) unit)
    (entry : HostDirEntry) (path : PathFragment) : M (Store * S) unit :=
  let! d := lift (dir this entry path) in rec d.

(** [well_formed], as a test that can be run. *)
Definition well_formedb (m : FileMap) : bool :=
  bool_decide (m !! [] = None)
  && forallb (λ p, negb (host_isDirectory m p)) (map fst (map_to_list m)).

(** ** Stores, runs and visitors used as concrete inputs *)

(** One tree over an empty backend with the files [/a] and [/dir/b]. *)
Definition store_a_dir_b : Store :=
  [mkHostTree EmptyBackend
     [create_record ["a"] "1"; create_record ["dir"; "b"] "2"] ∅].

(** One tree over an empty backend with the file [/a]. *)
Definition store_a : Store :=
  [mkHostTree EmptyBackend [create_record ["a"] "abcdef"] ∅].

(** A recorder is taken on [/a]; [/a] is then deleted and [/a/b] is
    created, which makes [/a] a directory; the recorder is committed. *)
Definition commit_on_directory : M Store unit :=
  let! r := beginUpdate 0 "/a" in
  delete 0 "/a" ;;
  create 0 "/a/b" "2" ;;
  commitUpdate 0 r.

(** A recorder is taken on [/a], [/a] is deleted, the recorder is
    committed. *)
Definition commit_on_deleted : M Store unit :=
  let! r := beginUpdate 0 "/a" in
  delete 0 "/a" ;;
  commitUpdate 0 r.

(** A tree with the file [/a] and two branches of it, each with one
    change of its own: tree 1 created [/x] and tree 2 created [/x]. *)
Definition store_both_create : Store :=
  [mkHostTree (RecordBackend 0) [create_record ["x"] "two"] ∅;
   mkHostTree (RecordBackend 0) [create_record ["x"] "one"] ∅;
   mkHostTree EmptyBackend [create_record ["a"] "0"] ∅].

(** The two branches are merged into a third tree one after the other:
    with no allowance the second merge throws; with the creation
    allowance it goes through and the content of the second stays. *)
Definition merge_both (strategy : Z) : M Store (option Buffer) :=
  let! target := branch 0 in
  merge 1 2 3 target 1 strategy ;;
  merge 1 2 3 target 2 strategy ;;
  read target "/x".

(** A tree with the file [/a] and two branches of it: tree 1 and tree 2
    each overwrote [/a], with the same content. *)
Definition store_both_overwrite : Store :=
  [mkHostTree (RecordBackend 0) [overwrite_record ["a"] "same"] ∅;
   mkHostTree (RecordBackend 0) [overwrite_record ["a"] "same"] ∅;
   mkHostTree EmptyBackend [create_record ["a"] "0"] ∅].

(** A tree with the file [/a] and two branches of it: tree 1 and tree 2
    each deleted [/a]. *)
Definition store_both_delete : Store :=
  [mkHostTree (RecordBackend 0) [delete_record ["a"]] ∅;
   mkHostTree (RecordBackend 0) [delete_record ["a"]] ∅;
   mkHostTree EmptyBackend [create_record ["a"] "0"] ∅].

(** The example of a branch that overwrites a file of its parent. *)
Definition overwrite_in_branch : M Store (option Buffer * option Buffer) :=
  let! b := branch 0 in
  overwrite b "/a" "2" ;;
  let! in_parent := read 0 "/a" in
  let! in_branch := read b "/a" in
  ret (in_parent, in_branch).

(** A file is created, deleted and created again with other content. *)
Definition create_delete_create : M Store (bool * option Buffer * list CordHostRecord) :=
  create 0 "/x" "C" ;;
  delete 0 "/x" ;;
  create 0 "/x" "C2" ;;
  let! there := exists_ 0 "/x" in
  let! content := read 0 "/x" in
  let! log := query (λ σ, records σ 0) in
  ret (there, content, log).

(** A visitor that throws the cancel token on [/a] and keeps no state. *)
Definition cancel_on_a : FileVisitor unit :=
  λ p entry s, (s, if bool_decide (p = ["a"]) then Some FileVisitorCancelToken else None).

(** A visitor that throws something else on [/a]. *)
Definition fail_on_a : FileVisitor unit :=
  λ p entry s, (s, if bool_decide (p = ["a"]) then Some (VisitorException "no") else None).

(** A visitor that does nothing. *)
Definition quiet : FileVisitor unit := λ p entry s, (s, None).

(** ** The entries [getDir] makes *)

(** The entry of a directory, by its path read backwards: the root has no
    parent and every other directory has the entry of its [dirname] as
    parent. *)
Fixpoint entry_rev (rev_p : list string) : HostDirEntry :=
  match rev_p with
  | [] => orphan_entry (rev rev_p)
  | _ :: rev_parent => child_entry (entry_rev rev_parent) (rev rev_p)
  end.

Definition entry_at (p : Path) : HostDirEntry := entry_rev (rev p).

(** Every cached directory entry is the entry [getDir] makes for the path
    it is cached for. *)
Definition cache_canonical (σ : Store) (this : nat) : Prop :=
  ∀ t q e, tree_at σ this = Some t → _dirCache t !! q = Some e → e = entry_at q.

(** ** [migrations/update-6]: the configuration file and the names *)

(** [getConfigPath]: the old configuration file of a workspace, looked
    for under its two names.  A [Path] handed to [exists] is handed as
    the string it stands for. *)
Definition getConfigPath (tree : nat) : M Store (list string) :=
  let possiblePath := normalize ".angular-cli.json" in
  let! found := exists_ tree (path_string possiblePath) in
  if found then ret possiblePath
  else
    let possiblePath := normalize "angular-cli.json" in
    let! found := exists_ tree (path_string possiblePath) in
    if found then ret possiblePath
    else throw (SchematicsException "Could not find configuration file").

(** [Array.prototype.indexOf] on an array of strings: the first index
    the item is at, or [-1]. *)
Fixpoint indexOf (items : list string) (item : string) : Z :=
  match items with
  | [] => (-1)%Z
  | x :: rest =>
      if String.eqb x item then 0%Z
      else
        let i := indexOf rest item in
        if Z.eqb i (-1) then (-1)%Z else (i + 1)%Z
  end.

(** [removeDupes] of [extractProjectsConfig]: a [reduce] that pushes an
    item on the new array when [indexOf] does not find it there. *)
Definition removeDupes (items : list string) : list string :=
  fold_left
    (λ newItems item,
       if Z.eqb (indexOf newItems item) (-1) then newItems ++ [item] else newItems)
    items [].

(** The parts of the old configuration that the names are read from.
    The types [CliConfig] and [AppConfig] are declared outside the
    sources at hand; every field is optional there. *)
Record AppConfig : Type := mkAppConfig {
  app_name : option string
}.

Record ProjectConfig : Type := mkProjectConfig {
  project_name : option string
}.

Record CliConfig : Type := mkCliConfig {
  config_project : option ProjectConfig;
  config_apps : option (list AppConfig)
}.

(** A string taken as a condition: [undefined] and the empty string count
    as false. *)
Definition truthy (s : option string) : bool :=
  match s with
  | Some s => negb (String.eqb s "")
  | None => false
  end.

(** [a || b] on an optional string and a string. *)
Definition or_else (a : option string) (b : string) : string :=
  match a with
  | Some s => if String.eqb s "" then b else s
  | None => b
  end.

(** [getDefaultAppNamePrefix]: ['app'], unless [config.project] is there
    and [config.project.name] counts as true. *)
Definition getDefaultAppNamePrefix (config : CliConfig) : string :=
  let defaultAppNamePrefix := "app" in
  match config_project config with
  | Some project =>
      match project_name project with
      | Some name => if truthy (Some name) then name else defaultAppNamePrefix
      | None => defaultAppNamePrefix
      end
  | None => defaultAppNamePrefix
  end.

(** [extractDefaultProject]: [null] when there is no first app. *)
Definition extractDefaultProject (config : CliConfig) : option string :=
  match config_apps config with
  | Some (app :: _) =>
      let defaultAppName := getDefaultAppNamePrefix config in
      Some (or_else (app_name app) defaultAppName)
  | _ => None
  end.

(** * Properties *)

(** ** Paths *)

Lemma split_nonempty (s : string) : split s ≠ [].
Proof.
  destruct s as [|c s]; simpl; [done|].
  destruct (Ascii.eqb _ _); [done|]. by destruct (split s).
Qed.

Lemma split_plain_app (f rest : string) :
  split f = [f] →
  split (f ++ rest)%string =
    match split rest with
    | [] => [f]
    | w :: ws => (f ++ w)%string :: ws
    end.
Proof.
  revert rest. induction f as [|c f IH]; intros rest Hf; simpl in *.
  - destruct (split rest) eqn:Hs; [|done]. by apply split_nonempty in Hs.
  - revert Hf. destruct (Ascii.eqb c "/") eqn:Hc; [done|].
    destruct (split f) as [|w ws] eqn:Hs; [by apply split_nonempty in Hs|].
    intros Hf. simplify_eq. rewrite IH by done. by destruct (split rest).
Qed.

Lemma string_app_empty_r (s : string) : (s ++ "")%string = s.
Proof.
  induction s as [|c s IH]; [done|].
  change (String c (s ++ "")%string = String c s). by rewrite IH.
Qed.

Lemma split_slash (s : string) : split ("/" ++ s)%string = "" :: split s.
Proof. reflexivity. Qed.

Lemma split_path_string (p : Path) :
  Forall plain_fragment p →
  p ≠ [] →
  split (String.concat "" (map (String.append "/") p)) = "" :: p.
Proof.
  induction 1 as [|f p Hf Hp IH]; [done|]. intros _.
  destruct Hf as (_ & _ & _ & Hf).
  destruct p as [|g p].
  - change (split ("/" ++ f)%string = ["" ; f]). by rewrite split_slash, Hf.
  - change (String.concat "" (map (String.append "/") (f :: g :: p)))
      with ("/" ++ (f ++ String.concat "" (map (String.append "/") (g :: p))))%string.
    rewrite split_slash, split_plain_app by done.
    rewrite IH by done. by rewrite string_app_empty_r.
Qed.

Lemma fold_resolve_plain (p acc : Path) :
  Forall plain_fragment p → fold_left resolve_segment p acc = acc ++ p.
Proof.
  intros Hp. revert acc. induction Hp as [|f p Hf Hp IH]; intros acc; simpl.
  - by rewrite app_nil_r.
  - destruct Hf as (H1 & H2 & H3 & _).
    unfold resolve_segment at 2.
    apply String.eqb_neq in H1, H2, H3. rewrite H1, H2, H3.
    rewrite IH. by rewrite <- app_assoc.
Qed.

(** Normalizing the string of a normalized path gives the path back:
    this is why the methods may be handed a [Path] again. *)
Lemma _normalizePath_path_string (p : Path) :
  Forall plain_fragment p → _normalizePath (path_string p) = p.
Proof.
  intros Hp. unfold _normalizePath, normalize, path_string.
  destruct p as [|f p]; [done|].
  rewrite split_slash, split_path_string by done.
  change (fold_left resolve_segment (f :: p) [] = f :: p).
  by rewrite fold_resolve_plain.
Qed.

Lemma split_parts (s : string) : Forall (λ w, split w = [w]) (split s).
Proof.
  induction s as [|c s IH]; simpl.
  - by repeat constructor.
  - destruct (Ascii.eqb c "/") eqn:Hc; [by constructor|].
    destruct (split s) as [|w ws]; [repeat constructor; simpl; by rewrite Hc|].
    inversion IH as [|? ? Hw Hws]; subst. constructor; [|done].
    simpl. by rewrite Hc, Hw.
Qed.

Lemma Forall_removelast {A} (P : A → Prop) (l : list A) :
  Forall P l → Forall P (removelast l).
Proof.
  induction 1 as [|x l Hx Hl IH]; simpl; [done|].
  destruct l; [done|]. by constructor.
Qed.

Lemma resolve_segment_plain (acc : Path) (seg : string) :
  Forall plain_fragment acc → split seg = [seg] →
  Forall plain_fragment (resolve_segment acc seg).
Proof.
  intros Hacc Hseg. unfold resolve_segment.
  destruct (String.eqb_spec seg ""); [done|].
  destruct (String.eqb_spec seg "."); [done|].
  destruct (String.eqb_spec seg ".."); [by apply Forall_removelast|].
  apply Forall_app. split; [done|]. by repeat constructor.
Qed.

Lemma fold_resolve_keeps_plain (l acc : list string) :
  Forall (λ w, split w = [w]) l → Forall plain_fragment acc →
  Forall plain_fragment (fold_left resolve_segment l acc).
Proof.
  intros Hl. revert acc. induction Hl as [|seg l Hseg Hl IH]; intros acc Hacc; [done|].
  simpl. by apply IH, resolve_segment_plain.
Qed.

(** What [normalize] gives is made of plain fragments, so normalizing it
    again changes nothing. *)
Lemma normalize_plain (s : string) : Forall plain_fragment (normalize s).
Proof. apply fold_resolve_keeps_plain; [apply split_parts|constructor]. Qed.

Lemma _normalizePath_idempotent (path : string) :
  _normalizePath (path_string (_normalizePath path)) = _normalizePath path.
Proof. apply _normalizePath_path_string, normalize_plain. Qed.

(** ** The store *)

Ltac run :=
  unfold and_then, bind, mbind, M_bind, bind, mret, M_ret, ret, throw, query, update; simpl.

Lemma length_modify f id (σ : Store) : length (modify f id σ) = length σ.
Proof.
  induction σ as [|t σ IH]; [done|]. simpl.
  case_bool_decide; simpl; congruence.
Qed.

Lemma modify_ge f id (σ : Store) : length σ ≤ id → modify f id σ = σ.
Proof.
  induction σ as [|t σ IH]; [done|]. simpl. intros Hid.
  rewrite bool_decide_eq_false_2 by lia. rewrite IH by lia. done.
Qed.

Lemma tree_at_lt (σ : Store) id : id < length σ → is_Some (tree_at σ id).
Proof.
  induction σ as [|t σ IH]; simpl; [lia|]. intros Hid.
  case_bool_decide; [by eexists|]. apply IH. lia.
Qed.

Lemma tree_at_modify f id (σ : Store) :
  tree_at (modify f id σ) id = f <$> tree_at σ id.
Proof.
  induction σ as [|t σ IH]; [done|]. simpl.
  case_bool_decide as Hid; simpl.
  - by rewrite bool_decide_eq_true_2.
  - rewrite length_modify. by rewrite bool_decide_eq_false_2.
Qed.

Lemma tree_at_modify_ne f id id' (σ : Store) :
  id ≠ id' → tree_at (modify f id σ) id' = tree_at σ id'.
Proof.
  intros Hne. induction σ as [|t σ IH]; [done|]. simpl.
  case_bool_decide as Hid; simpl.
  - rewrite bool_decide_eq_false_2; [done|congruence].
  - rewrite length_modify. by rewrite IH.
Qed.

(** A tree reads nothing of the trees made after it. *)
Lemma files_modify_newer f id id' (σ : Store) :
  id' < id → files (modify f id σ) id' = files σ id'.
Proof.
  intros Hlt. induction σ as [|t σ IH]; [done|]. simpl.
  case_bool_decide as Hid; simpl.
  - rewrite !bool_decide_eq_false_2 by lia. done.
  - rewrite length_modify. case_bool_decide as Hid'.
    + rewrite modify_ge by lia. done.
    + done.
Qed.

(** A change that leaves backend and records alone (a change of the
    directory cache) shows in no tree's files. *)
Lemma files_modify_cache f id id' (σ : Store) :
  (∀ t, _backend (f t) = _backend t ∧ _record (f t) = _record t) →
  files (modify f id σ) id' = files σ id'.
Proof.
  intros Hf. revert id'. induction σ as [|t σ IH]; intros id'; [done|]. simpl.
  case_bool_decide as Hid; simpl.
  - destruct (Hf t) as [-> ->]. done.
  - rewrite length_modify. case_bool_decide; [|done].
    destruct (_backend t); try done. by rewrite IH.
Qed.

Lemma apply_records_snoc (rs : list CordHostRecord) (r : CordHostRecord) (m : FileMap) :
  apply_records (rs ++ [r]) m = apply_record (apply_records rs m) r.
Proof. unfold apply_records. by rewrite fold_left_app. Qed.

(** Appending a record to a tree applies it to the files the tree shows. *)
Lemma files_append id r (σ : Store) :
  id < length σ →
  files (modify (add_record r) id σ) id = apply_record (files σ id) r.
Proof.
  induction σ as [|t σ IH]; simpl; [lia|]. intros Hid.
  case_bool_decide as Hid'; simpl.
  - rewrite bool_decide_eq_true_2 by done. by rewrite apply_records_snoc.
  - rewrite length_modify, bool_decide_eq_false_2 by done. apply IH. lia.
Qed.

Lemma records_append id r (σ : Store) :
  id < length σ →
  records (modify (add_record r) id σ) id = records σ id ++ [r].
Proof.
  intros Hid. unfold records. rewrite tree_at_modify.
  destruct (tree_at_lt σ id Hid) as [t ->]. done.
Qed.

(** ** What a host shows *)

Lemma host_isFile_true (m : FileMap) p : host_isFile m p = true ↔ is_Some (m !! p).
Proof. unfold host_isFile. by rewrite bool_decide_eq_true. Qed.

Lemma host_isFile_false (m : FileMap) p : host_isFile m p = false ↔ m !! p = None.
Proof.
  unfold host_isFile. rewrite bool_decide_eq_false, <- eq_None_not_Some. done.
Qed.

Lemma host_isDirectory_true (m : FileMap) p :
  host_isDirectory m p = true ↔ ∃ q, is_Some (m !! q) ∧ below p q = true.
Proof.
  unfold host_isDirectory. rewrite existsb_exists. split.
  - intros (q & Hq & Hb). exists q. split; [|done].
    apply list_elem_of_In, list_elem_of_fmap in Hq as ([q' c] & -> & Hq).
    apply elem_of_map_to_list in Hq. by eexists.
  - intros (q & [c Hq] & Hb). exists q. split; [|done].
    apply list_elem_of_In, list_elem_of_fmap. exists (q, c). split; [done|].
    by apply elem_of_map_to_list.
Qed.

Lemma below_length p q : below p q = true → length p < length q.
Proof.
  unfold below. rewrite andb_true_iff, negb_true_iff, bool_decide_eq_true, bool_decide_eq_false.
  intros [[k ->] Hne]. rewrite length_app. destruct k; [|simpl; lia].
  by rewrite app_nil_r in Hne.
Qed.

Lemma below_irrefl p : below p p = false.
Proof. unfold below. rewrite (bool_decide_eq_true_2 (p = p)) by done. by rewrite andb_false_r. Qed.

Lemma below_true (p q : Path) : below p q = true ↔ ∃ x k, q = p ++ x :: k.
Proof.
  unfold below. rewrite andb_true_iff, negb_true_iff, bool_decide_eq_true, bool_decide_eq_false.
  split.
  - intros [[k ->] Hne]. destruct k as [|x k]; [by rewrite app_nil_r in Hne|]. by exists x, k.
  - intros (x & k & ->). split; [by exists (x :: k)|].
    intros Heq. apply (f_equal length) in Heq. rewrite length_app in Heq. simpl in Heq. lia.
Qed.

Lemma host_isDirectory_insert (m : FileMap) p c :
  host_isDirectory (<[p := c]> m) p = host_isDirectory m p.
Proof.
  apply eq_true_iff_eq. rewrite !host_isDirectory_true.
  split; intros (q & Hq & Hb); exists q; (split; [|done]).
  - rewrite lookup_insert_ne in Hq; [done|].
    intros ->. by rewrite below_irrefl in Hb.
  - rewrite lookup_insert_ne; [done|].
    intros ->. by rewrite below_irrefl in Hb.
Qed.

Lemma host_exists_false (m : FileMap) p :
  host_exists m p = false ↔ m !! p = None ∧ host_isDirectory m p = false.
Proof. unfold host_exists. by rewrite orb_false_iff, host_isFile_false. Qed.

(** ** The queries of a tree, by the files it shows *)

Lemma record_exists_eq {A} (this : nat) p (k : bool → M Store A) (σ : Store) :
  (let! e := record_exists this p in k e) σ = k (host_exists (files σ this) p) σ.
Proof. reflexivity. Qed.

Lemma exists_eq (this : nat) path (σ : Store) :
  exists_ this path σ = Ok (host_isFile (files σ this) (_normalizePath path)) σ.
Proof. reflexivity. Qed.

Lemma get_at_eq (this : nat) p (σ : Store) :
  get_at this p σ =
    if host_isDirectory (files σ this) p
    then Throw (PathIsDirectoryException (path_string p)) σ
    else match files σ this !! p with
         | Some c => Ok (Some (LazyFileEntry p c)) σ
         | None => Ok None σ
         end.
Proof.
  unfold get_at, record_isDirectory, record_exists. run.
  destruct (host_isDirectory (files σ this) p) eqn:Hd; [done|].
  unfold host_exists, host_isFile, host_read. rewrite Hd, orb_false_r.
  destruct (files σ this !! p) as [c|] eqn:Hp; simpl.
  - by rewrite Hp.
  - done.
Qed.

Lemma read_eq (this : nat) path (σ : Store) :
  read this path σ =
    if host_isDirectory (files σ this) (_normalizePath path)
    then Throw (PathIsDirectoryException (path_string (_normalizePath path))) σ
    else Ok (files σ this !! _normalizePath path) σ.
Proof.
  unfold read, get. unfold and_then, bind at 1. rewrite get_at_eq.
  destruct (host_isDirectory _ _); [done|].
  by destruct (files σ this !! _normalizePath path).
Qed.

(** ** The recording host's changes, by the files the tree shows *)

Lemma record_isFile_eq {A} (this : nat) p (k : bool → M Store A) (σ : Store) :
  (let! f := record_isFile this p in k f) σ = k (host_isFile (files σ this) p) σ.
Proof. reflexivity. Qed.

Lemma record_overwrite_eq (this : nat) p content (σ : Store) :
  record_overwrite this p content σ =
    if host_isFile (files σ this) p
    then Ok tt (modify (add_record (overwrite_record p content)) this σ)
    else Throw (FileDoesNotExistException (path_string p)) σ.
Proof.
  unfold record_overwrite. rewrite record_isFile_eq.
  by destruct (host_isFile (files σ this) p).
Qed.

Lemma record_create_eq (this : nat) p content (σ : Store) :
  record_create this p content σ =
    if host_exists (files σ this) p
    then Throw (FileAlreadyExistException (path_string p)) σ
    else Ok tt (modify (add_record (create_record p content)) this σ).
Proof.
  unfold record_create. rewrite record_exists_eq.
  by destruct (host_exists (files σ this) p).
Qed.

Lemma record_delete_eq (this : nat) p (σ : Store) :
  record_delete this p σ =
    if host_isFile (files σ this) p
    then Ok tt (modify (add_record (delete_record p)) this σ)
    else Throw (FileDoesNotExistException (path_string p)) σ.
Proof.
  unfold record_delete. rewrite record_isFile_eq.
  by destruct (host_isFile (files σ this) p).
Qed.

Lemma record_rename_eq (this : nat) (from to : Path) (σ : Store) :
  record_rename this from to σ =
    if negb (host_isFile (files σ this) from)
    then Throw (FileDoesNotExistException (path_string from)) σ
    else if host_exists (files σ this) to
    then Throw (FileAlreadyExistException (path_string to)) σ
    else Ok tt (modify (add_record (rename_record from to)) this σ).
Proof.
  unfold record_rename. rewrite record_isFile_eq.
  destruct (host_isFile (files σ this) from); simpl; [|done].
  rewrite record_exists_eq. by destruct (host_exists (files σ this) to).
Qed.

(** A change of the host that the tree subscribes to is made when the
    host takes it and left out when the host fails; the call returns
    either way. *)
Lemma subscribe_record_overwrite (this : nat) p content (σ : Store) :
  subscribe (record_overwrite this p content) σ =
    Ok tt (if host_isFile (files σ this) p
           then modify (add_record (overwrite_record p content)) this σ
           else σ).
Proof.
  unfold subscribe. rewrite record_overwrite_eq.
  by destruct (host_isFile (files σ this) p).
Qed.

Lemma subscribe_record_create (this : nat) p content (σ : Store) :
  subscribe (record_create this p content) σ =
    Ok tt (if host_exists (files σ this) p
           then σ
           else modify (add_record (create_record p content)) this σ).
Proof.
  unfold subscribe. rewrite record_create_eq.
  by destruct (host_exists (files σ this) p).
Qed.

(** ** Directories: [exists] and [get] *)

(** C10: for a path that resolves to a directory (some file lies strictly
    below it and no file is at it), [exists] returns false and [get]
    throws [PathIsDirectoryException] instead of returning null. *)
Theorem exists_false_get_throws_on_directory (σ : Store) (this : nat) (path : string) (q : Path) :
  is_Some (files σ this !! q) →
  below (_normalizePath path) q = true →
  files σ this !! _normalizePath path = None →
  exists_ this path σ = Ok false σ
  ∧ get this path σ
    = Throw (PathIsDirectoryException (path_string (_normalizePath path))) σ.
Proof.
  intros Hq Hb Hp. split.
  - unfold exists_, record_isFile. run. f_equal. by apply host_isFile_false.
  - unfold get, get_at, record_isDirectory. run.
    replace (host_isDirectory (files σ this) (_normalizePath path)) with true; [done|].
    symmetry. apply host_isDirectory_true. by exists q.
Qed.

Lemma exists_false_get_throws_on_directory_witness :
  exists_ 0 "/dir" store_a_dir_b = Ok false store_a_dir_b
  ∧ get 0 "/dir" store_a_dir_b
    = Throw (PathIsDirectoryException (path_string (_normalizePath "/dir"))) store_a_dir_b.
Proof.
  apply (exists_false_get_throws_on_directory store_a_dir_b 0 "/dir" ["dir"; "b"]).
  - vm_compute. by eexists.
  - vm_compute. reflexivity.
  - vm_compute. reflexivity.
Defined.

(** ** [create] *)

(** C9, the claim as stated fails: on a path that is a directory [exists]
    is false and yet [create] throws [FileAlreadyExistException]. *)
Lemma create_throws_where_exists_is_false :
  exists_ 0 "/dir" store_a_dir_b = Ok false store_a_dir_b
  ∧ create 0 "/dir" "x" store_a_dir_b
    = Throw (FileAlreadyExistException "/dir") store_a_dir_b.
Proof. split; vm_compute; reflexivity. Qed.

(** C9, amended: [create] throws [FileAlreadyExistException] exactly when
    the path is already there in the recording host as a file or as a
    directory, which is the case whenever [exists] is true; otherwise it
    appends a create record, after which [exists] is true and [read]
    gives the content. *)
Theorem create_throws_iff_file_or_directory (σ : Store) (this : nat) (path : string) (content : Buffer) :
  this < length σ →
  (exists_ this path σ = Ok true σ →
   host_exists (files σ this) (_normalizePath path) = true)
  ∧ (if host_exists (files σ this) (_normalizePath path)
     then create this path content σ
          = Throw (FileAlreadyExistException (path_string (_normalizePath path))) σ
     else ∃ σ',
          create this path content σ = Ok tt σ'
          ∧ records σ' this = records σ this ++ [create_record (_normalizePath path) content]
          ∧ exists_ this path σ' = Ok true σ'
          ∧ read this path σ' = Ok (Some content) σ').
Proof.
  intros Hthis. set (p := _normalizePath path). split.
  - unfold exists_, record_isFile. run. intros [= Hf].
    unfold host_exists. fold p in Hf. by rewrite Hf.
  - destruct (host_exists (files σ this) p) eqn:He.
    + unfold create. fold p. by rewrite record_exists_eq, He.
    + exists (modify (add_record (create_record p content)) this σ).
      pose proof (files_append this (create_record p content) σ Hthis) as Hfiles.
      simpl in Hfiles.
      apply host_exists_false in He as He'. destruct He' as [Hnone Hdir].
      split; [|split; [|split]].
      * unfold create. fold p. rewrite record_exists_eq, He.
        by rewrite subscribe_record_create, He.
      * by apply records_append.
      * rewrite exists_eq. fold p. rewrite Hfiles. f_equal.
        apply host_isFile_true. rewrite lookup_insert_eq. by eexists.
      * rewrite read_eq. fold p. rewrite Hfiles.
        by rewrite host_isDirectory_insert, Hdir, lookup_insert_eq.
Qed.

Lemma create_throws_iff_file_or_directory_witness :
  (exists_ 0 "/c" store_a_dir_b = Ok true store_a_dir_b →
   host_exists (files store_a_dir_b 0) (_normalizePath "/c") = true)
  ∧ (if host_exists (files store_a_dir_b 0) (_normalizePath "/c")
     then create 0 "/c" "3" store_a_dir_b
          = Throw (FileAlreadyExistException (path_string (_normalizePath "/c"))) store_a_dir_b
     else ∃ σ',
          create 0 "/c" "3" store_a_dir_b = Ok tt σ'
          ∧ records σ' 0 = records store_a_dir_b 0 ++ [create_record (_normalizePath "/c") "3"]
          ∧ exists_ 0 "/c" σ' = Ok true σ'
          ∧ read 0 "/c" σ' = Ok (Some "3") σ').
Proof.
  apply (create_throws_iff_file_or_directory store_a_dir_b 0 "/c" "3").
  simpl. lia.
Defined.

(** ** [commitUpdate] *)

(** [overwrite] throws on a path that is not there; on a path that is
    there it leaves the change to the host, which takes it for a file. *)
Lemma overwrite_at_eq (this : nat) p content (σ : Store) :
  overwrite_at this p content σ =
    if host_exists (files σ this) p
    then Ok tt (if host_isFile (files σ this) p
                then modify (add_record (overwrite_record p content)) this σ
                else σ)
    else Throw (FileDoesNotExistException (path_string p)) σ.
Proof.
  unfold overwrite_at. rewrite record_exists_eq.
  destruct (host_exists (files σ this) p) eqn:He; simpl; [|done].
  apply subscribe_record_overwrite.
Qed.

Example commit_on_deleted_throws :
  ∃ σ, commit_on_deleted store_a = Throw (ContentHasMutatedException "/a") σ.
Proof. eexists. vm_compute. reflexivity. Qed.

(** C8, the claim as stated fails: the recorder's path no longer resolves
    to a file, and what [commitUpdate] throws is
    [PathIsDirectoryException], not [ContentHasMutatedException]. *)
Lemma commitUpdate_on_directory_throws_PathIsDirectory :
  ∃ σ, commit_on_directory store_a = Throw (PathIsDirectoryException "/a") σ
       ∧ exists_ 0 "/a" σ = Ok false σ.
Proof. eexists. split; vm_compute; reflexivity. Qed.

(** C8, amended: [commitUpdate] throws [InvalidUpdateRecordException] for
    a recorder that is not an [UpdateRecorderBase]; otherwise it looks the
    recorder's path up again: it throws [PathIsDirectoryException] when
    the path is now a directory, [ContentHasMutatedException] when the
    path is there no more, and when the path is a file it applies the
    recorder's patches to the content found there and overwrites the file
    with the result. *)
Theorem commitUpdate_rereads_and_overwrites (σ : Store) (this : nat) (record : UpdateRecorder) :
  this < length σ →
  match record with
  | recorder_foreign =>
      commitUpdate this record σ = Throw InvalidUpdateRecordException σ
  | recorder_base r =>
      let p := recorder_path r in
      if host_isDirectory (files σ this) p
      then commitUpdate this record σ
           = Throw (PathIsDirectoryException (path_string p)) σ
      else match files σ this !! p with
           | None =>
               commitUpdate this record σ
               = Throw (ContentHasMutatedException (path_string p)) σ
           | Some current =>
               ∃ σ',
               commitUpdate this record σ = Ok tt σ'
               ∧ records σ' this
                 = records σ this ++ [overwrite_record p (recorder_apply r current)]
               ∧ files σ' this !! p = Some (recorder_apply r current)
           end
  end.
Proof.
  intros Hthis. destruct record as [r|]; [|done]. simpl.
  unfold commitUpdate, and_then, bind. rewrite get_at_eq.
  destruct (host_isDirectory (files σ this) (recorder_path r)) eqn:Hd; [done|].
  destruct (files σ this !! recorder_path r) as [current|] eqn:Hp; [|done].
  simpl. eexists. split; [|split].
  - rewrite overwrite_at_eq. unfold host_exists.
    rewrite (proj2 (host_isFile_true _ _)) by by eexists. done.
  - by apply records_append.
  - rewrite files_append by done. simpl. by rewrite lookup_insert_eq.
Qed.

Lemma commitUpdate_rereads_and_overwrites_witness :
  let r := insertLeft 0 "X" (mkUpdateRecorderBase ["a"] []) in
  if host_isDirectory (files store_a 0) ["a"]
  then commitUpdate 0 (recorder_base r) store_a
       = Throw (PathIsDirectoryException (path_string ["a"])) store_a
  else match files store_a 0 !! ["a"] with
       | None =>
           commitUpdate 0 (recorder_base r) store_a
           = Throw (ContentHasMutatedException (path_string ["a"])) store_a
       | Some current =>
           ∃ σ',
           commitUpdate 0 (recorder_base r) store_a = Ok tt σ'
           ∧ records σ' 0
             = records store_a 0 ++ [overwrite_record ["a"] (recorder_apply r current)]
           ∧ files σ' 0 !! ["a"] = Some (recorder_apply r current)
       end.
Proof.
  apply (commitUpdate_rereads_and_overwrites store_a 0
           (recorder_base (insertLeft 0 "X" (mkUpdateRecorderBase ["a"] [])))).
  simpl. lia.
Defined.

(** ** The log and the recorder on examples *)

Example create_delete_create_keeps_three_records :
  ∃ σ, create_delete_create [mkHostTree EmptyBackend [] ∅]
       = Ok (true, Some "C2",
             [create_record ["x"] "C"; delete_record ["x"]; create_record ["x"] "C2"]) σ.
Proof. eexists. vm_compute. reflexivity. Qed.

Example recorder_apply_example :
  recorder_apply
    (remove 2 2 (insertRight 6 "Y" (insertLeft 0 "X" (mkUpdateRecorderBase ["f"] []))))
    "abcdef"
  = "XabefY".
Proof. reflexivity. Qed.

(** ** Merge strategies *)

Lemma flag_pos (b : Z) : (0 ≤ b)%Z → (0 < Z.shiftl 1 b)%Z.
Proof. intros Hb. rewrite Z.shiftl_1_l. by apply Z.pow_pos_nonneg. Qed.

Lemma flag_inj (b b' : Z) :
  (0 ≤ b)%Z → (0 ≤ b')%Z → Z.shiftl 1 b = Z.shiftl 1 b' → b = b'.
Proof.
  intros Hb Hb'. rewrite !Z.shiftl_1_l. intros Heq.
  by apply (Z.pow_inj_r 2) in Heq; [|lia..].
Qed.

(** Masking a strategy with a flag leaves the flag or nothing. *)
Lemma land_flag (strategy b : Z) :
  (0 ≤ b)%Z →
  Z.land strategy (Z.shiftl 1 b) = if Z.testbit strategy b then Z.shiftl 1 b else 0%Z.
Proof.
  intros Hb. apply Z.bits_inj'. intros n Hn.
  rewrite Z.land_spec, Z.shiftl_1_l, Z.pow2_bits_eqb by done.
  destruct (Z.testbit strategy b) eqn:Hs.
  - rewrite Z.pow2_bits_eqb by done.
    destruct (Z.eqb_spec b n) as [->|]; [by rewrite Hs|by rewrite andb_false_r].
  - rewrite Z.bits_0.
    destruct (Z.eqb_spec b n) as [->|]; [by rewrite Hs|by rewrite andb_false_r].
Qed.

(** An allowance computed by masking with a flag and comparing with the
    same flag is set exactly when the flag's bit is set. *)
Lemma creationConflictAllowed_testbit (creationBit strategy : Z) :
  (0 ≤ creationBit)%Z →
  creationConflictAllowed creationBit strategy = Z.testbit strategy creationBit.
Proof.
  intros Hb. unfold creationConflictAllowed, AllowCreationConflict.
  rewrite land_flag by done. pose proof (flag_pos creationBit Hb).
  destruct (Z.testbit strategy creationBit); [apply Z.eqb_refl|].
  apply Z.eqb_neq. lia.
Qed.

Lemma overwriteConflictAllowed_testbit (overwriteBit strategy : Z) :
  (0 ≤ overwriteBit)%Z →
  overwriteConflictAllowed overwriteBit strategy = Z.testbit strategy overwriteBit.
Proof.
  intros Hb. unfold overwriteConflictAllowed, AllowOverwriteConflict.
  rewrite land_flag by done. pose proof (flag_pos overwriteBit Hb).
  destruct (Z.testbit strategy overwriteBit); [apply Z.eqb_refl|].
  apply Z.eqb_neq. lia.
Qed.

(** The delete allowance masks with the overwrite flag and compares with
    the delete flag: with flags on bits of their own it is never set. *)
Lemma deleteConflictAllowed_false (overwriteBit deleteBit strategy : Z) :
  (0 ≤ overwriteBit)%Z → (0 ≤ deleteBit)%Z → overwriteBit ≠ deleteBit →
  deleteConflictAllowed overwriteBit deleteBit strategy = false.
Proof.
  intros Ho Hd Hne. unfold deleteConflictAllowed, AllowOverwriteConflict, AllowDeleteConflict.
  rewrite land_flag by done. pose proof (flag_pos deleteBit Hd).
  apply Z.eqb_neq. destruct (Z.testbit strategy overwriteBit); [|lia].
  intros Heq. by apply flag_inj in Heq.
Qed.

(** ** Loops *)

Lemma forEach_cons {Σ A} (x : A) (l : list A) (callback : A → M Σ unit) (σ : Σ) :
  forEach (x :: l) callback σ =
    match callback x σ with
    | Ok _ σ' => forEach l callback σ'
    | Throw e σ' => Throw e σ'
    | Exhausted => Exhausted
    end.
Proof. reflexivity. Qed.

Lemma forEach_app {Σ A} (l1 l2 : list A) (callback : A → M Σ unit) (σ : Σ) :
  forEach (l1 ++ l2) callback σ =
    match forEach l1 callback σ with
    | Ok _ σ' => forEach l2 callback σ'
    | Throw e σ' => Throw e σ'
    | Exhausted => Exhausted
    end.
Proof.
  revert σ. induction l1 as [|x l1 IH]; intros σ; [done|].
  simpl app. rewrite !forEach_cons. destruct (callback x σ); [apply IH|done..].
Qed.

(** ** What this tree has pending *)

Lemma willCreate_eq {A} (this : nat) p (k : bool → M Store A) (σ : Store) :
  (let! c := willCreate this p in k c) σ = k (existsb (creates p) (records σ this)) σ.
Proof. reflexivity. Qed.

Lemma willOverwrite_eq {A} (this : nat) p (k : bool → M Store A) (σ : Store) :
  (let! c := willOverwrite this p in k c) σ = k (existsb (overwrites p) (records σ this)) σ.
Proof. reflexivity. Qed.

Lemma willDelete_eq {A} (this : nat) p (k : bool → M Store A) (σ : Store) :
  (let! c := willDelete this p in k c) σ = k (existsb (deletes p) (records σ this)) σ.
Proof. reflexivity. Qed.

(** ** [merge] on examples *)

Example merge_both_strict :
  ∃ σ, merge_both Default store_both_create = Throw (MergeConflictException "/x") σ.
Proof. eexists. vm_compute. reflexivity. Qed.

Example merge_both_allowed :
  ∃ σ, merge_both (AllowCreationConflict 2) store_both_create = Ok (Some "two") σ.
Proof. eexists. vm_compute. reflexivity. Qed.

(** ** [merge]: overwrite actions *)

(** C3, what the code does: with an overwrite of the path pending in this
    tree and no overwrite allowance, an overwrite action of another tree
    throws [MergeConflictException] whatever its content is, also when it
    is the content of the pending overwrite.  The comment "Ignore if
    content is the same (considered the same change)" stands above a test
    that does not look at the content. *)
Theorem merge_overwrite_action_conflicts_whatever_the_content
    (overwriteBit creationBit deleteBit : Z) (σ : Store) (this : nat)
    (strategy : Z) (action : Action) (path : Path) (content : Buffer) :
  (0 ≤ overwriteBit)%Z →
  id action ≠ this →
  body action = OverwriteFileAction path content →
  existsb (overwrites path) (records σ this) = true →
  Z.testbit strategy overwriteBit = false →
  merge_action overwriteBit creationBit deleteBit this strategy action σ
  = Throw (MergeConflictException (path_string path)) σ.
Proof.
  intros Hbit Hid Hbody Hpending Hstrategy. unfold merge_action.
  rewrite bool_decide_eq_false_2 by done. rewrite Hbody.
  rewrite willOverwrite_eq, Hpending.
  by rewrite overwriteConflictAllowed_testbit, Hstrategy.
Qed.

Lemma merge_overwrite_action_conflicts_whatever_the_content_witness :
  records store_both_overwrite 1 = [overwrite_record ["a"] "same"]
  ∧ merge_action 1 2 3 1 Default (mkAction 2 0 (OverwriteFileAction ["a"] "same"))
      store_both_overwrite
    = Throw (MergeConflictException "/a") store_both_overwrite.
Proof.
  split; [reflexivity|].
  apply (merge_overwrite_action_conflicts_whatever_the_content 1 2 3
           store_both_overwrite 1 Default
           (mkAction 2 0 (OverwriteFileAction ["a"] "same")) ["a"] "same").
  - lia.
  - simpl. lia.
  - reflexivity.
  - reflexivity.
  - reflexivity.
Defined.

Example merge_same_overwrite_strict :
  merge 1 2 3 1 2 Default store_both_overwrite
  = Throw (MergeConflictException "/a") store_both_overwrite.
Proof. vm_compute. reflexivity. Qed.

(** With no overwrite of the path pending, or with the overwrite
    allowance, the action is handed to the host as an overwrite. *)
Lemma merge_overwrite_action_applied
    (overwriteBit creationBit deleteBit : Z) (σ : Store) (this : nat)
    (strategy : Z) (action : Action) (path : Path) (content : Buffer) :
  (0 ≤ overwriteBit)%Z →
  id action ≠ this →
  body action = OverwriteFileAction path content →
  existsb (overwrites path) (records σ this) = false
  ∨ Z.testbit strategy overwriteBit = true →
  merge_action overwriteBit creationBit deleteBit this strategy action σ
  = subscribe (record_overwrite this path content) σ.
Proof.
  intros Hbit Hid Hbody Hcase. unfold merge_action.
  rewrite bool_decide_eq_false_2 by done. rewrite Hbody.
  rewrite willOverwrite_eq, overwriteConflictAllowed_testbit by done.
  destruct Hcase as [-> | ->]; [done|]. by rewrite andb_false_r.
Qed.

(** ** [merge]: delete actions *)

(** C2, what the code does: the delete allowance is never set, whatever
    bits the strategy has, so a delete action of another tree on a path
    this tree has a delete pending on throws [MergeConflictException]
    under every strategy, also with the overwrite bit and the delete bit
    set. *)
Theorem merge_delete_action_conflicts_under_every_strategy
    (overwriteBit creationBit deleteBit : Z) (σ : Store) (this : nat)
    (strategy : Z) (action : Action) (path : Path) :
  (0 ≤ overwriteBit)%Z → (0 ≤ deleteBit)%Z → overwriteBit ≠ deleteBit →
  id action ≠ this →
  body action = DeleteFileAction path →
  existsb (deletes path) (records σ this) = true →
  deleteConflictAllowed overwriteBit deleteBit strategy = false
  ∧ merge_action overwriteBit creationBit deleteBit this strategy action σ
    = Throw (MergeConflictException (path_string path)) σ.
Proof.
  intros Ho Hd Hne Hid Hbody Hpending.
  pose proof (deleteConflictAllowed_false overwriteBit deleteBit strategy Ho Hd Hne) as Hnever.
  split; [done|]. unfold merge_action.
  rewrite bool_decide_eq_false_2 by done. rewrite Hbody.
  by rewrite willDelete_eq, Hpending, Hnever.
Qed.

Lemma merge_delete_action_conflicts_under_every_strategy_witness :
  let everything :=
    (AllowOverwriteConflict 1 + AllowCreationConflict 2 + AllowDeleteConflict 3)%Z in
  deleteConflictAllowed 1 3 everything = false
  ∧ merge_action 1 2 3 1 everything (mkAction 2 0 (DeleteFileAction ["a"]))
      store_both_delete
    = Throw (MergeConflictException (path_string ["a"])) store_both_delete.
Proof.
  apply (merge_delete_action_conflicts_under_every_strategy 1 2 3
           store_both_delete 1 14 (mkAction 2 0 (DeleteFileAction ["a"])) ["a"]).
  - lia.
  - lia.
  - lia.
  - simpl. lia.
  - reflexivity.
  - reflexivity.
Defined.

Example merge_same_delete_everything_allowed :
  merge 1 2 3 1 2 14 store_both_delete
  = Throw (MergeConflictException "/a") store_both_delete.
Proof. vm_compute. reflexivity. Qed.

(** ** [merge]: a tree's own actions *)

Lemma merge_action_own
    (overwriteBit creationBit deleteBit : Z) (this : nat) (strategy : Z)
    (action : Action) (σ : Store) :
  id action = this →
  merge_action overwriteBit creationBit deleteBit this strategy action σ = Ok tt σ.
Proof. intros Hid. unfold merge_action. by rewrite bool_decide_eq_true_2. Qed.

(** C4: [merge] passes over every action made by this tree itself and
    changes nothing for it; merging a tree into itself, or merging
    actions that are all this tree's own, leaves the store as it was. *)
Theorem merge_skips_own_actions
    (overwriteBit creationBit deleteBit : Z) (this : nat) (strategy : Z) :
  (∀ (action : Action) (σ : Store),
     id action = this →
     merge_action overwriteBit creationBit deleteBit this strategy action σ = Ok tt σ)
  ∧ (∀ (acts : list Action) (σ : Store),
       merge_actions overwriteBit creationBit deleteBit this strategy acts σ
       = merge_actions overwriteBit creationBit deleteBit this strategy
           (List.filter (λ a, negb (bool_decide (id a = this))) acts) σ)
  ∧ (∀ (acts : list Action) (σ : Store),
       Forall (λ a, id a = this) acts →
       merge_actions overwriteBit creationBit deleteBit this strategy acts σ = Ok tt σ)
  ∧ (∀ σ : Store,
       merge overwriteBit creationBit deleteBit this this strategy σ = Ok tt σ).
Proof.
  split; [|split; [|split]].
  - intros action σ Hid. by apply merge_action_own.
  - unfold merge_actions. induction acts as [|a acts IH]; intros σ; [done|].
    simpl List.filter. case_bool_decide as Hid; simpl negb; cbv iota.
    + rewrite forEach_cons, merge_action_own by done. apply IH.
    + rewrite !forEach_cons.
      destruct (merge_action _ _ _ _ _ a σ); [apply IH|done..].
  - unfold merge_actions. intros acts σ Hown.
    induction Hown as [|a acts Ha Hown IH]; [done|].
    by rewrite forEach_cons, merge_action_own.
  - intros σ. unfold merge. by rewrite bool_decide_eq_true_2.
Qed.

Lemma merge_skips_own_actions_witness :
  merge_action 1 2 3 0 Default (mkAction 0 0 (DeleteFileAction ["a"])) store_a
  = Ok tt store_a
  ∧ merge_actions 1 2 3 0 Default
      [mkAction 0 0 (DeleteFileAction ["a"]); mkAction 0 0 (CreateFileAction ["a"] "2")]
      store_a
    = Ok tt store_a.
Proof.
  destruct (merge_skips_own_actions 1 2 3 0 Default) as (Hone & _ & Hall & _).
  split.
  - apply Hone. reflexivity.
  - apply Hall. repeat constructor.
Defined.

(** ** What an operation may change *)

Section Keeps.

(** A relation between the store before and the store after that holds
    of no step and of steps in a row. *)
Variable R : list HostTree → list HostTree → Prop.
Hypothesis R_refl : ∀ σ, R σ σ.
Hypothesis R_trans : ∀ σ1 σ2 σ3, R σ1 σ2 → R σ2 σ3 → R σ1 σ3.

Lemma keeps_ret {A} (a : A) : keeps R (ret a).
Proof. intros σ. apply R_refl. Qed.

Lemma keeps_throw {A} (e : Exception) : keeps R (throw e : M Store A).
Proof. intros σ. apply R_refl. Qed.

Lemma keeps_query {A} (f : Store → A) : keeps R (query f).
Proof. intros σ. apply R_refl. Qed.

Lemma keeps_and_then {A B} (c : M Store A) (k : A → M Store B) :
  keeps R c → (∀ a, keeps R (k a)) → keeps R (and_then c k).
Proof.
  intros Hc Hk σ. unfold and_then, bind. specialize (Hc σ).
  destruct (c σ) as [a σ'| |]; [|done..].
  specialize (Hk a σ'). destruct (k a σ'); eauto.
Qed.

Lemma keeps_seq {A B} (c : M Store A) (k : M Store B) :
  keeps R c → keeps R k → keeps R (c ;; k).
Proof. intros Hc Hk. by apply (keeps_and_then c (λ _, k)). Qed.

Lemma keeps_forEach {A} (l : list A) (callback : A → M Store unit) :
  (∀ x, keeps R (callback x)) → keeps R (forEach l callback).
Proof.
  intros Hcb. induction l as [|x l IH]; simpl.
  - apply keeps_ret.
  - by apply keeps_seq.
Qed.

Lemma keeps_subscribe (c : M Store unit) : keeps R c → keeps R (subscribe c).
Proof. intros Hc σ. unfold subscribe. specialize (Hc σ). by destruct (c σ). Qed.

Lemma keeps_final {A} (c : M Store A) (σ : Store) : keeps R c → R σ (final (c σ) σ).
Proof. intros Hc. specialize (Hc σ). destruct (c σ); simpl; eauto. Qed.

End Keeps.

(** ** Changes stay in the tree they are made on *)

Lemma modify_ext f g id (σ : Store) :
  (∀ t, f t = g t) → modify f id σ = modify g id σ.
Proof.
  intros Hfg. induction σ as [|t σ IH]; [done|]. simpl.
  case_bool_decide; by rewrite ?Hfg, ?IH.
Qed.

Lemma modify_id f id (σ : Store) : (∀ t, f t = t) → modify f id σ = σ.
Proof.
  intros Hf. induction σ as [|t σ IH]; [done|]. simpl.
  case_bool_decide; by rewrite ?Hf, ?IH.
Qed.

Lemma modify_modify f g id (σ : Store) :
  modify f id (modify g id σ) = modify (λ t, f (g t)) id σ.
Proof.
  induction σ as [|t σ IH]; [done|]. simpl.
  case_bool_decide as Hid; simpl.
  - by rewrite bool_decide_eq_true_2.
  - rewrite length_modify, bool_decide_eq_false_2 by done. by rewrite IH.
Qed.

Lemma appends_refl id (σ : Store) : appends id σ σ.
Proof.
  exists []. symmetry. apply modify_id. intros [back rs cache].
  unfold add_records. simpl. by rewrite app_nil_r.
Qed.

Lemma appends_trans id (σ1 σ2 σ3 : Store) :
  appends id σ1 σ2 → appends id σ2 σ3 → appends id σ1 σ3.
Proof.
  intros [rs1 ->] [rs2 ->]. exists (rs1 ++ rs2).
  rewrite modify_modify. apply modify_ext. intros t.
  unfold add_records. simpl. by rewrite app_assoc.
Qed.

Section Appends.

Variable id : nat.

Lemma appends_ret {A} (a : A) : keeps (appends id) (ret a).
Proof. apply keeps_ret, appends_refl. Qed.

Lemma appends_throw {A} (e : Exception) : keeps (appends id) (throw e : M Store A).
Proof. apply keeps_throw, appends_refl. Qed.

Lemma appends_query {A} (f : Store → A) : keeps (appends id) (query f).
Proof. apply keeps_query, appends_refl. Qed.

Lemma appends_and_then {A B} (c : M Store A) (k : A → M Store B) :
  keeps (appends id) c → (∀ a, keeps (appends id) (k a)) →
  keeps (appends id) (and_then c k).
Proof. apply keeps_and_then, appends_trans. Qed.

Lemma appends_forEach {A} (l : list A) (callback : A → M Store unit) :
  (∀ x, keeps (appends id) (callback x)) → keeps (appends id) (forEach l callback).
Proof. apply keeps_forEach; [apply appends_refl|apply appends_trans]. Qed.

Lemma appends_append_record r : keeps (appends id) (append_record id r).
Proof. intros σ. simpl. by exists [r]. Qed.

Lemma appends_subscribe (c : M Store unit) :
  keeps (appends id) c → keeps (appends id) (subscribe c).
Proof. apply keeps_subscribe. Qed.

Lemma appends_if {A} (b : bool) (c1 c2 : M Store A) :
  keeps (appends id) c1 → keeps (appends id) c2 →
  keeps (appends id) (if b then c1 else c2).
Proof. by destruct b. Qed.

End Appends.

(** Take a computation apart along its binds and branches. *)
Ltac appends_step :=
  first
    [ apply appends_ret
    | apply appends_throw
    | apply appends_query
    | apply appends_append_record
    | apply appends_if
    | apply appends_subscribe
    | apply appends_and_then; [|intros ?]
    | apply appends_forEach; intros ? ].

Lemma appends_record_create id p c : keeps (appends id) (record_create id p c).
Proof. unfold record_create, record_exists. repeat appends_step. Qed.

Lemma appends_record_overwrite id p c : keeps (appends id) (record_overwrite id p c).
Proof. unfold record_overwrite, record_isFile. repeat appends_step. Qed.

Lemma appends_record_rename id from to : keeps (appends id) (record_rename id from to).
Proof. unfold record_rename, record_isFile, record_exists. repeat appends_step. Qed.

Lemma appends_record_delete id p : keeps (appends id) (record_delete id p).
Proof. unfold record_delete, record_isFile. repeat appends_step. Qed.

Lemma appends_get_at id id' p : keeps (appends id) (get_at id' p).
Proof. unfold get_at, record_isDirectory, record_exists. repeat appends_step. Qed.

Lemma appends_overwrite_at id p c : keeps (appends id) (overwrite_at id p c).
Proof.
  unfold overwrite_at, record_exists.
  repeat first [apply appends_record_overwrite | appends_step].
Qed.

Lemma appends_commitUpdate id record : keeps (appends id) (commitUpdate id record).
Proof.
  unfold commitUpdate. destruct record as [r|]; [|apply appends_throw].
  apply appends_and_then; [apply appends_get_at|].
  intros [e|]; [apply appends_overwrite_at|apply appends_throw].
Qed.

Lemma appends_create id path c : keeps (appends id) (create id path c).
Proof.
  unfold create, record_exists.
  repeat first [apply appends_record_create | appends_step].
Qed.

Lemma appends_merge_action ob cb db id strategy action :
  keeps (appends id) (merge_action ob cb db id strategy action).
Proof.
  unfold merge_action, rename_at, willCreate, willOverwrite, willRename, willDelete.
  apply appends_if; [apply appends_ret|].
  destruct (body action);
    repeat first [apply appends_record_create | apply appends_record_overwrite
                 | apply appends_record_rename | apply appends_record_delete
                 | appends_step].
Qed.

Lemma appends_merge ob cb db id other strategy :
  keeps (appends id) (merge ob cb db id other strategy).
Proof.
  unfold merge, merge_actions, actions.
  repeat first [apply appends_merge_action | appends_step].
Qed.

(** ** Branches *)

Lemma appends_perform ob cb db this change :
  keeps (appends this) (perform ob cb db this change).
Proof.
  destruct change; simpl.
  - apply appends_create.
  - apply appends_overwrite_at.
  - apply appends_record_delete.
  - apply appends_record_rename.
  - apply appends_commitUpdate.
  - apply appends_merge.
Qed.

Lemma observe_files (σ σ' : Store) this this' path :
  files σ this = files σ' this' → observe σ this path = observe σ' this' path.
Proof.
  intros Hfiles. unfold observe. rewrite !exists_eq, !read_eq, Hfiles.
  by destruct (host_isDirectory _ _).
Qed.

Lemma appends_length id (σ σ' : Store) : appends id σ σ' → length σ' = length σ.
Proof. intros [rs ->]. apply length_modify. Qed.

Lemma appends_files_older id id' (σ σ' : Store) :
  appends id σ σ' → id' < id → files σ' id' = files σ id'.
Proof. intros [rs ->] Hlt. by apply files_modify_newer. Qed.

Lemma appends_backend id id' (σ σ' : Store) :
  appends id σ σ' → _backend <$> tree_at σ' id' = _backend <$> tree_at σ id'.
Proof.
  intros [rs ->]. destruct (decide (id = id')) as [->|Hne].
  - rewrite tree_at_modify. by destruct (tree_at σ id').
  - by rewrite tree_at_modify_ne.
Qed.

Lemma tree_at_Some_lt (σ : Store) id t : tree_at σ id = Some t → id < length σ.
Proof.
  induction σ as [|t' σ IH]; simpl; [done|].
  case_bool_decide; [lia|]. intros Ht. apply IH in Ht. lia.
Qed.

(** A tree whose backend is the recording host of an older tree shows
    its own records applied over what that tree shows now. *)
Lemma files_over_parent (σ : Store) b this t :
  tree_at σ b = Some t → _backend t = RecordBackend this → this < b →
  files σ b = apply_records (_record t) (files σ this).
Proof.
  intros Ht Hback Hlt. induction σ as [|t' σ IH]; [done|]. simpl in *.
  case_bool_decide as Hb.
  - simplify_eq. rewrite Hback. by rewrite bool_decide_eq_false_2 by lia.
  - apply tree_at_Some_lt in Ht as Hlen.
    rewrite bool_decide_eq_false_2 by lia. by apply IH.
Qed.

Lemma perform_appends ob cb db this change (σ : Store) :
  appends this σ (final (perform ob cb db this change σ) σ).
Proof.
  apply (keeps_final (appends this)); [apply appends_refl|apply appends_perform].
Qed.

Lemma after_length ob cb db changes (σ : Store) :
  length (after ob cb db changes σ) = length σ.
Proof.
  revert σ. induction changes as [|[this change] rest IH]; intros σ; [done|].
  simpl. rewrite IH. apply (appends_length this), perform_appends.
Qed.

Lemma after_backend ob cb db changes (σ : Store) id :
  _backend <$> tree_at (after ob cb db changes σ) id = _backend <$> tree_at σ id.
Proof.
  revert σ. induction changes as [|[this change] rest IH]; intros σ; [done|].
  simpl. rewrite IH. apply (appends_backend this), perform_appends.
Qed.

Lemma after_files_older ob cb db changes (σ : Store) id :
  Forall (λ c, id < c.1) changes →
  files (after ob cb db changes σ) id = files σ id.
Proof.
  intros Hnewer. revert σ.
  induction Hnewer as [|[this change] rest Hlt Hrest IH]; intros σ; [done|].
  simpl. rewrite IH. apply (appends_files_older this); [|exact Hlt].
  apply perform_appends.
Qed.

(** ** [merge]: the actions of the other tree in turn *)

Lemma clean_app {A} (l1 l2 : list (option A)) : clean (l1 ++ l2) = clean l1 ++ clean l2.
Proof. apply omap_app. Qed.



(** [merge] when it comes to a record of the other tree: the actions of
    the records before it have been taken, the action of the record is
    taken in the store they have left, and the actions of the records
    after it follow if it does not throw. *)
Lemma merge_run ob cb db this other strategy (σ σ1 : Store)
    (earlier later : list CordHostRecord) (r : CordHostRecord) (a : Action) :
  other ≠ this →
  records σ other = earlier ++ r :: later →
  action_of other r = Some a →
  merge_actions ob cb db this strategy (clean (map (action_of other) earlier)) σ = Ok tt σ1 →
  merge ob cb db this other strategy σ =
    match merge_action ob cb db this strategy a σ1 with
    | Ok _ σ2 =>
        merge_actions ob cb db this strategy (clean (map (action_of other) later)) σ2
    | Throw e σ2 => Throw e σ2
    | Exhausted => Exhausted
    end.
Proof.
  intros Hother Hrecords Ha Hearlier. unfold merge.
  rewrite bool_decide_eq_false_2 by done.
  unfold and_then, bind, actions, query. rewrite Hrecords, map_app, clean_app.
  unfold merge_actions in *. rewrite forEach_app, Hearlier.
  assert (clean (map (action_of other) (r :: later))
          = a :: clean (map (action_of other) later)) as ->.
  { unfold clean. simpl. by rewrite Ha. }
  by rewrite forEach_cons.
Qed.

(** ** [merge]: create actions *)



(** C1, the claim as stated fails: a file created in the parent after
    the fork shows in the branch, which did not have it when it was
    forked. *)
Lemma change_of_parent_shows_in_branch :
  ∃ σ0 σ1,
    branch 0 [mkHostTree EmptyBackend [] ∅] = Ok 1 σ0
    ∧ create 0 "/a" "1" σ0 = Ok tt σ1
    ∧ observe σ0 1 "/a" = (Some (inl false), Some (inl None))
    ∧ observe σ1 1 "/a" = (Some (inl true), Some (inl (Some "1"))).
Proof. do 2 eexists. repeat split; vm_compute; reflexivity. Qed.

Example overwrite_in_branch_stays_there :
  ∃ σ, overwrite_in_branch [mkHostTree EmptyBackend [create_record ["a"] "1"] ∅]
       = Ok (Some "1", Some "2") σ.
Proof. eexists. vm_compute. reflexivity. Qed.

(** C1, amended: a branch starts out showing what its parent shows at
    the fork; whatever is then changed in the branch, or in any tree made
    after the parent, shows in no [exists] or [read] of the parent; and
    the branch goes on reading through to the parent: at any later time
    it shows its own records applied over what the parent shows then. *)
Theorem branch_reads_through_and_keeps_own_changes
    (overwriteBit creationBit deleteBit : Z) (σ : Store) (this : nat) :
  this < length σ →
  ∃ σ0,
    branch this σ = Ok (length σ) σ0
    ∧ (∀ path, observe σ0 (length σ) path = observe σ this path)
    ∧ (∀ changes path,
         Forall (λ c, this < c.1) changes →
         observe (after overwriteBit creationBit deleteBit changes σ0) this path
         = observe σ this path)
    ∧ (∀ changes,
         let σ1 := after overwriteBit creationBit deleteBit changes σ0 in
         files σ1 (length σ) = apply_records (records σ1 (length σ)) (files σ1 this)).
Proof.
  intros Hthis. eexists. split; [reflexivity|].
  set (σ0 := mkHostTree (RecordBackend this) [] ∅ :: σ).
  assert (files σ0 this = files σ this) as Hparent.
  { simpl. by rewrite bool_decide_eq_false_2 by lia. }
  split; [|split].
  - intros path. apply observe_files. simpl.
    by rewrite bool_decide_eq_true_2.
  - intros changes path Hnewer. apply observe_files.
    by rewrite after_files_older.
  - intros changes σ1.
    pose proof (after_backend overwriteBit creationBit deleteBit changes σ0 (length σ)) as Hback.
    fold σ1 in Hback. simpl in Hback. rewrite bool_decide_eq_true_2 in Hback by done.
    simpl in Hback. unfold records.
    destruct (tree_at σ1 (length σ)) as [t|] eqn:Ht; [|done].
    simpl in *. apply files_over_parent; [done|congruence|done].
Qed.

Lemma branch_reads_through_and_keeps_own_changes_witness :
  ∃ σ0,
    branch 0 store_a = Ok 1 σ0
    ∧ (∀ path, observe σ0 1 path = observe store_a 0 path)
    ∧ (∀ changes path,
         Forall (λ c, 0 < c.1) changes →
         observe (after 1 2 3 changes σ0) 0 path = observe store_a 0 path)
    ∧ (∀ changes,
         let σ1 := after 1 2 3 changes σ0 in
         files σ1 1 = apply_records (records σ1 1) (files σ1 0)).
Proof.
  apply (branch_reads_through_and_keeps_own_changes 1 2 3 store_a 0).
  simpl. lia.
Defined.

(** ** The order of a visit *)

Lemma depth_bound (m : FileMap) q : is_Some (m !! q) → length q ≤ depth m.
Proof.
  intros [c Hq]. apply elem_of_map_to_list in Hq. unfold depth.
  induction (map_to_list m) as [|kv l IH]; [by apply elem_of_nil in Hq|].
  apply elem_of_cons in Hq as [<-|Hq]; simpl; [lia|].
  specialize (IH Hq). lia.
Qed.

Lemma dir_dirs_depth (m : FileMap) p d :
  d ∈ dir_dirs m p → Datatypes.S (length p) < depth m.
Proof.
  unfold dir_dirs. rewrite list_elem_of_In, filter_In. intros [_ Hd].
  apply host_isDirectory_true in Hd as (q & Hq & Hb).
  apply below_length in Hb. apply depth_bound in Hq.
  unfold join in Hb. rewrite length_app in Hb. simpl in Hb. lia.
Qed.

Lemma flat_map_ext_in {A B} (f g : A → list B) (l : list A) :
  (∀ x, x ∈ l → f x = g x) → flat_map f l = flat_map g l.
Proof.
  induction l as [|x l IH]; intros Hfg; [done|]. simpl.
  rewrite Hfg by apply list_elem_of_here.
  rewrite IH; [done|]. intros y Hy. apply Hfg. by apply list_elem_of_further.
Qed.

(** The order below a directory: its files first, then what lies below
    each of its directories, in the same way. *)
Lemma order_eq (m : FileMap) (p : Path) :
  order m p
  = map (join p) (dir_files m p) ++ flat_map (λ d, order m (join p d)) (dir_dirs m p).
Proof.
  unfold order at 1. simpl. f_equal. apply flat_map_ext_in. intros d Hd.
  apply dir_dirs_depth in Hd. unfold order.
  replace (depth m - length p) with (Datatypes.S (depth m - length (join p d))); [done|].
  unfold join. rewrite length_app. simpl. lia.
Qed.

(** ** [getDir] on directories *)

Lemma same_files_refl (σ : Store) : same_files σ σ.
Proof. by intros id. Qed.

Lemma same_files_trans (σ1 σ2 σ3 : Store) :
  same_files σ1 σ2 → same_files σ2 σ3 → same_files σ1 σ3.
Proof. intros H12 H23 id. by rewrite H23. Qed.

Lemma add_cached_ok (this : nat) p e (σ : Store) :
  dir_path e = p → cache_ok σ this →
  cache_ok (modify (add_cached p e) this σ) this
  ∧ same_files σ (modify (add_cached p e) this σ).
Proof.
  intros He Hok. split.
  - intros t q e'. rewrite tree_at_modify.
    destruct (tree_at σ this) as [t0|] eqn:Ht; [|done]. intros [= <-]. simpl.
    destruct (decide (p = q)) as [<-|Hne].
    + rewrite lookup_insert_eq. by intros [= <-].
    + rewrite lookup_insert_ne by done. by apply Hok.
  - intros id. by apply files_modify_cache.
Qed.

Lemma getDir_rev_eq (this : nat) (rp : list string) (σ : Store) :
  getDir_rev this rp σ =
    if host_isFile (files σ this) (rev rp)
    then Throw (PathIsFileException (path_string (rev rp))) σ
    else match cache_lookup σ this (rev rp) with
         | Some e => Ok e σ
         | None =>
             match rp with
             | [] =>
                 Ok (orphan_entry (rev rp))
                    (modify (add_cached (rev rp) (orphan_entry (rev rp))) this σ)
             | _ :: rp' =>
                 match getDir_rev this rp' σ with
                 | Ok e' σ1 =>
                     Ok (child_entry e' (rev rp))
                        (modify (add_cached (rev rp) (child_entry e' (rev rp))) this σ1)
                 | Throw e σ1 => Throw e σ1
                 | Exhausted => Exhausted
                 end
             end
         end.
Proof.
  destruct rp as [|x rp];
    (change (getDir_rev this ?l σ) with
      ((let! f := record_isFile this (rev l) in
        if f then throw (PathIsFileException (path_string (rev l)))
        else
          let! maybeCache := cached this (rev l) in
          match maybeCache with
          | Some e => ret e
          | None =>
              let! parent :=
                match l with
                | [] => ret None
                | _ :: rev_parent =>
                    let! e := getDir_rev this rev_parent in ret (Some e)
                end in
              let e := mkHostDirEntry parent (rev l) in
              cache this (rev l) e ;; ret e
          end) σ) at 1);
    unfold and_then, bind at 1, record_isFile, query at 1;
    (destruct (host_isFile (files σ this) _); [done|]);
    unfold bind at 1, cached, query;
    (destruct (cache_lookup σ this _); [done|]);
    unfold bind at 1, ret; [done|].
  unfold bind at 1. by destruct (getDir_rev this rp σ).
Qed.

Lemma getDir_rev_ok (this : nat) (rp : list string) (σ : Store) :
  (∀ q, q `prefix_of` rev rp → files σ this !! q = None) →
  cache_ok σ this →
  ∃ e σ', getDir_rev this rp σ = Ok e σ'
          ∧ dir_path e = rev rp ∧ cache_ok σ' this ∧ same_files σ σ'.
Proof.
  revert σ. induction rp as [|x rp IH]; intros σ Hnofile Hok;
    rewrite getDir_rev_eq;
    rewrite (proj2 (host_isFile_false _ _)) by (by apply Hnofile);
    (destruct (cache_lookup σ this _) as [e|] eqn:He;
     [exists e, σ; split; [done|]; split;
        [unfold cache_lookup in He; destruct (tree_at σ this) eqn:Ht; [by eapply Hok|done]|];
        split; [done|apply same_files_refl] |]).
  - eexists _, _. split; [done|]. split; [done|]. by apply add_cached_ok.
  - destruct (IH σ) as (e' & σ1 & -> & Hpath & Hok1 & Hsame1); [|done|].
    { intros q Hq. apply Hnofile. simpl. by apply prefix_app_r. }
    eexists _, _. split; [done|]. split; [done|].
    destruct (add_cached_ok this (rev (x :: rp)) (child_entry e' (rev (x :: rp))) σ1)
      as [Hok2 Hsame2]; [done..|].
    split; [done|]. by eapply same_files_trans.
Qed.

(** ** The traversal *)

Lemma run_visitor_app {S} (visitor : FileVisitor S) (m : FileMap) (l1 l2 : list Path) (s : S) :
  run_visitor visitor m (l1 ++ l2) s =
    match run_visitor visitor m l1 s with
    | (s', None) => run_visitor visitor m l2 s'
    | (s', Some e) => (s', Some e)
    end.
Proof.
  revert s. induction l1 as [|p l1 IH]; intros s; [done|]. simpl.
  destruct (visitor p (entry_of m p) s) as [s' [e|]]; [done|]. apply IH.
Qed.

Lemma below_prefix (q p r : Path) : q `prefix_of` p → below p r = true → below q r = true.
Proof.
  intros Hqp Hb. pose proof (below_length _ _ Hb) as Hlen.
  unfold below in *. apply andb_true_iff in Hb as [Hpr _].
  apply bool_decide_eq_true in Hpr. apply andb_true_iff. split.
  - apply bool_decide_eq_true. by etrans.
  - apply negb_true_iff, bool_decide_eq_false. intros ->.
    apply prefix_length in Hqp. lia.
Qed.

(** Above a directory and at it there is no file. *)
Lemma directory_prefix_no_file (m : FileMap) (p q : Path) :
  well_formed m → host_isDirectory m p = true → q `prefix_of` p → m !! q = None.
Proof.
  intros [_ Hwf] Hdir Hq. apply host_isDirectory_true in Hdir as (r & Hr & Hb).
  destruct (m !! q) as [c|] eqn:Hfile; [|done].
  assert (host_isDirectory m q = false) as Hno by (apply Hwf; by eexists).
  assert (host_isDirectory m q = true) as Hyes.
  { apply host_isDirectory_true. exists r. split; [done|]. by eapply below_prefix. }
  congruence.
Qed.

Section Traversal.

Context {S : Type}.
Variable this : nat.
Variable visitor : FileVisitor S.
Variable m : gmap (list string) string.
Hypothesis m_well_formed : well_formed m.

Lemma _recurse_eq (fuel : nat) (entry : HostDirEntry) (σ : Store) (s : S) :
  _recurse (Datatypes.S fuel) this visitor entry (σ, s) =
    match forEach (dir_files (files σ this) (dir_path entry)) (visit_file this visitor entry) (σ, s) with
    | Ok _ w =>
        forEach (dir_dirs (files w.1 this) (dir_path entry))
          (visit_dir this (_recurse fuel this visitor) entry) (w.1, w.2)
    | Throw e w => Throw e w
    | Exhausted => Exhausted
    end.
Proof. reflexivity. Qed.

Lemma visit_file_eq (entry : HostDirEntry) (path : PathFragment) (σ : Store) (s : S) :
  files σ this = m →
  is_Some (m !! join (dir_path entry) path) →
  visit_file this visitor entry path (σ, s)
  = result_of (visitor (join (dir_path entry) path)
                 (entry_of m (join (dir_path entry) path)) s) σ.
Proof.
  intros Hm [c Hc]. unfold visit_file, and_then, bind, lift, file. simpl.
  rewrite get_at_eq, Hm. destruct m_well_formed as [_ Hwf].
  rewrite Hwf by by eexists. rewrite Hc. unfold call, entry_of. simpl. rewrite Hc. simpl.
  by destruct (visitor _ _ s) as [s' [e|]].
Qed.

Lemma files_loop (entry : HostDirEntry) (fs : list PathFragment) (σ : Store) (s : S) :
  files σ this = m →
  (∀ f, f ∈ fs → is_Some (m !! join (dir_path entry) f)) →
  forEach fs (visit_file this visitor entry) (σ, s)
  = result_of (run_visitor visitor m (map (join (dir_path entry)) fs) s) σ.
Proof.
  intros Hm. revert s. induction fs as [|f fs IH]; intros s Hfs; [done|].
  rewrite forEach_cons, visit_file_eq by (done || apply Hfs, list_elem_of_here).
  simpl. destruct (visitor _ _ s) as [s' [e|]]; simpl; [done|].
  apply IH. intros f' Hf'. by apply Hfs, list_elem_of_further.
Qed.

Lemma dirs_loop (rec : HostDirEntry → M (Store * S) unit) (sub : PathFragment → list Path)
    (entry : HostDirEntry) (ds : list PathFragment) (σ : Store) (s : S) :
  (∀ d entry' σ0 s0,
     d ∈ ds → dir_path entry' = join (dir_path entry) d →
     files σ0 this = m → cache_ok σ0 this →
     ∃ σ', same_files σ0 σ' ∧ cache_ok σ' this
           ∧ rec entry' (σ0, s0) = result_of (run_visitor visitor m (sub d) s0) σ') →
  (∀ d, d ∈ ds → host_isDirectory m (join (dir_path entry) d) = true) →
  files σ this = m → cache_ok σ this →
  ∃ σ', same_files σ σ' ∧ cache_ok σ' this
        ∧ forEach ds (visit_dir this rec entry) (σ, s)
          = result_of (run_visitor visitor m (flat_map sub ds) s) σ'.
Proof.
  revert σ s. induction ds as [|d ds IH]; intros σ s Hrec Hdirs Hm Hok.
  - exists σ. split; [apply same_files_refl|]. by split.
  - destruct (getDir_rev_ok this (rev (join (dir_path entry) d)) σ)
      as (e & σ1 & Hget & Hpath & Hok1 & Hsame1); [|done|].
    { intros q Hq. rewrite rev_involutive in Hq. rewrite Hm.
      eapply directory_prefix_no_file; [done| |done].
      apply Hdirs, list_elem_of_here. }
    rewrite rev_involutive in Hpath.
    destruct (Hrec d e σ1 s) as (σ2 & Hsame2 & Hok2 & Hrun);
      [apply list_elem_of_here|done|by rewrite Hsame1|done|].
    rewrite forEach_cons. unfold visit_dir at 1, and_then, bind, lift, dir, getDir_at.
    simpl fst. simpl snd. rewrite Hget, Hrun. simpl flat_map. rewrite run_visitor_app.
    destruct (run_visitor visitor m (sub d) s) as [s' [ex|]]; simpl.
    + exists σ2. split; [by eapply same_files_trans|]. by split.
    + destruct (IH σ2 s') as (σ3 & Hsame3 & Hok3 & Hloop).
      * intros d' entry' σ0 s0 Hd'. apply Hrec. by apply list_elem_of_further.
      * intros d' Hd'. by apply Hdirs, list_elem_of_further.
      * by rewrite Hsame2, Hsame1.
      * done.
      * exists σ3. split; [|by split].
        eapply same_files_trans; [|done]. by eapply same_files_trans.
Qed.

End Traversal.

Lemma dir_files_file (m : FileMap) p f : f ∈ dir_files m p → is_Some (m !! join p f).
Proof.
  unfold dir_files. rewrite list_elem_of_In, filter_In. intros [_ Hf].
  by apply host_isFile_true.
Qed.

Lemma dir_dirs_directory (m : FileMap) p d :
  d ∈ dir_dirs m p → host_isDirectory m (join p d) = true.
Proof. unfold dir_dirs. rewrite list_elem_of_In, filter_In. by intros [_ Hd]. Qed.

(** One level of [_recurse]: the files of the directory, then its
    directories, each as the level below takes it. *)
Lemma _recurse_level {S} (this : nat) (visitor : FileVisitor S) (m : FileMap)
    (fuel : nat) (entry : HostDirEntry) (σ : Store) (s : S) :
  well_formed m →
  (∀ d entry' σ0 s0,
     d ∈ dir_dirs m (dir_path entry) → dir_path entry' = join (dir_path entry) d →
     files σ0 this = m → cache_ok σ0 this →
     ∃ σ', same_files σ0 σ' ∧ cache_ok σ' this
           ∧ _recurse fuel this visitor entry' (σ0, s0)
             = result_of (run_visitor visitor m
                            (visit_order fuel m (join (dir_path entry) d)) s0) σ') →
  files σ this = m → cache_ok σ this →
  ∃ σ', same_files σ σ' ∧ cache_ok σ' this
        ∧ _recurse (Datatypes.S fuel) this visitor entry (σ, s)
          = result_of (run_visitor visitor m
                         (visit_order (Datatypes.S fuel) m (dir_path entry)) s) σ'.
Proof.
  intros Hwf Hrec Hm Hok. rewrite _recurse_eq, Hm.
  pose proof (files_loop this visitor m Hwf entry (dir_files m (dir_path entry)) σ s Hm)
    as Hfiles.
  rewrite Hfiles by (intros f Hf; by apply dir_files_file). clear Hfiles.
  simpl visit_order. rewrite run_visitor_app.
  destruct (run_visitor visitor m (map (join (dir_path entry)) (dir_files m (dir_path entry))) s)
    as [s' [e|]]; simpl result_of; cbv iota.
  - exists σ. split; [apply same_files_refl|by split].
  - simpl fst. simpl snd. rewrite Hm.
    apply (dirs_loop this visitor m Hwf); try done.
    intros d Hd. by apply dir_dirs_directory.
Qed.

(** [_recurse], with the fuel the depth of the files asks for, calls the
    visitor as [run_visitor] does on the order of the directory, and
    leaves the files of every tree as they are. *)
Lemma _recurse_run {S} (this : nat) (visitor : FileVisitor S) (m : FileMap) :
  well_formed m →
  ∀ k entry (σ : Store) s,
    depth m - length (dir_path entry) = k →
    files σ this = m → cache_ok σ this →
    ∃ σ', same_files σ σ' ∧ cache_ok σ' this
          ∧ _recurse (Datatypes.S k) this visitor entry (σ, s)
            = result_of (run_visitor visitor m
                           (visit_order (Datatypes.S k) m (dir_path entry)) s) σ'.
Proof.
  intros Hwf. induction k as [|k IH]; intros entry σ s Hk Hm Hok;
    (apply _recurse_level; [done| |done..]);
    intros d entry' σ0 s0 Hd Hpath Hm0 Hok0; apply dir_dirs_depth in Hd.
  - lia.
  - rewrite <- Hpath. apply IH; [|done..].
    rewrite Hpath. unfold join. rewrite length_app. simpl. lia.
Qed.

(** [visit] calls the visitor on the files in the order of the root, up
    to the first call that throws; a thrown [FileVisitorCancelToken] ends
    the visit quietly, anything else thrown is thrown on. *)
Lemma visit_eq {S} (this : nat) (visitor : FileVisitor S) (σ : Store) (s : S) :
  well_formed (files σ this) → cache_ok σ this →
  ∃ σ', same_files σ σ'
        ∧ visit this visitor (σ, s) =
          match run_visitor visitor (files σ this) (order (files σ this) []) s with
          | (s', None) => Ok tt (σ', s')
          | (s', Some e) =>
              if bool_decide (e = FileVisitorCancelToken)
              then Ok tt (σ', s') else Throw e (σ', s')
          end.
Proof.
  intros Hwf Hok.
  destruct (getDir_rev_ok this [] σ) as (r & σ1 & Hroot & Hpath & Hok1 & Hsame1); [|done|].
  { intros q Hq. apply prefix_nil_inv in Hq as ->. apply Hwf. }
  destruct (_recurse_run this visitor (files σ this) Hwf (depth (files σ this)) r σ1 s)
    as (σ2 & Hsame2 & Hok2 & Hrun); [rewrite Hpath; simpl; lia|apply Hsame1|done|].
  rewrite Hpath in Hrun.
  exists σ2. split; [by eapply same_files_trans|].
  unfold visit, and_then, bind, lift, root, getDir, getDir_at.
  change (rev (_normalizePath "/")) with (@nil string). simpl fst. rewrite Hroot.
  unfold dir_visit, catch_cancel. simpl fst. simpl snd. rewrite Hsame1, Hrun.
  unfold order. simpl length. rewrite Nat.sub_0_r.
  by destruct (run_visitor _ _ _ s) as [s' [e|]].
Qed.

(** ** What the visitor is called on *)

Lemma run_traced_stop {S} (visitor : FileVisitor S) (m : FileMap)
    (before rest : list Path) (f : Path) (s s1 s2 : S) (e : Exception) (log : list Path) :
  run_visitor visitor m before s = (s1, None) →
  visitor f (entry_of m f) s1 = (s2, Some e) →
  run_visitor (traced visitor) m (before ++ f :: rest) (s, log)
  = ((s2, log ++ before ++ [f]), Some e).
Proof.
  revert s log. induction before as [|p before IH]; intros s log Hbefore Hf; simpl in *.
  - simplify_eq. unfold traced. simpl. by rewrite Hf.
  - unfold traced at 1. simpl.
    destruct (visitor p (entry_of m p) s) as [s' [e'|]]; [done|].
    rewrite (IH s' (log ++ [p])) by done. by rewrite <- app_assoc.
Qed.

Lemma run_traced_all {S} (visitor : FileVisitor S) (m : FileMap)
    (l : list Path) (s : S) (log : list Path) :
  (∀ p entry s0, (visitor p entry s0).2 = None) →
  run_visitor (traced visitor) m l (s, log)
  = (((run_visitor visitor m l s).1, log ++ l), None).
Proof.
  intros Hquiet. revert s log. induction l as [|p l IH]; intros s log; simpl.
  - by rewrite app_nil_r.
  - unfold traced at 1. simpl. pose proof (Hquiet p (entry_of m p) s) as Hp.
    destruct (visitor p (entry_of m p) s) as [s' [e'|]]; [done|].
    rewrite IH. by rewrite <- app_assoc.
Qed.

Lemma well_formedb_true (m : FileMap) : well_formedb m = true → well_formed m.
Proof.
  unfold well_formedb. rewrite andb_true_iff, bool_decide_eq_true, forallb_forall.
  intros [Hroot Hall]. split; [done|]. intros p [c Hp].
  apply negb_true_iff, Hall, list_elem_of_In, list_elem_of_fmap.
  exists (p, c). split; [done|]. by apply elem_of_map_to_list.
Qed.

Lemma cache_ok_empty (σ : Store) (this : nat) :
  (∀ t, tree_at σ this = Some t → _dirCache t = ∅) → cache_ok σ this.
Proof. intros Hempty t q e Ht. by rewrite (Hempty t Ht), lookup_empty. Qed.

(** C6: when the visitor throws on a file, no file after it is visited;
    if what it throws is [FileVisitorCancelToken], [visit] returns to its
    caller, and anything else is thrown on to the caller. *)
Theorem visit_stops_at_throw_and_swallows_cancel {S}
    (σ : Store) (this : nat) (visitor : FileVisitor S) (s s1 s2 : S)
    (before rest : list Path) (f : Path) (e : Exception) :
  well_formed (files σ this) → cache_ok σ this →
  order (files σ this) [] = before ++ f :: rest →
  run_visitor visitor (files σ this) before s = (s1, None) →
  visitor f (entry_of (files σ this) f) s1 = (s2, Some e) →
  ∃ σ', same_files σ σ'
        ∧ visit this (traced visitor) (σ, (s, [])) =
          if bool_decide (e = FileVisitorCancelToken)
          then Ok tt (σ', (s2, before ++ [f]))
          else Throw e (σ', (s2, before ++ [f])).
Proof.
  intros Hwf Hok Horder Hbefore Hf.
  destruct (visit_eq this (traced visitor) σ (s, []) Hwf Hok) as (σ' & Hsame & Hvisit).
  exists σ'. split; [done|]. rewrite Hvisit, Horder.
  by rewrite (run_traced_stop visitor _ before rest f s s1 s2 e []).
Qed.

Lemma visit_stops_at_throw_and_swallows_cancel_witness :
  ∃ σ', same_files store_a_dir_b σ'
        ∧ visit 0 (traced cancel_on_a) (store_a_dir_b, (tt, []))
          = Ok tt (σ', (tt, [["a"]])).
Proof.
  apply (visit_stops_at_throw_and_swallows_cancel store_a_dir_b 0 cancel_on_a
           tt tt tt [] [["dir"; "b"]] ["a"] FileVisitorCancelToken).
  - apply well_formedb_true. vm_compute. reflexivity.
  - apply cache_ok_empty. intros t Ht. vm_compute in Ht. by simplify_eq.
  - vm_compute. reflexivity.
  - reflexivity.
  - reflexivity.
Defined.

Example visit_throws_other_exceptions_on :
  ∃ w, visit 0 (traced fail_on_a) (store_a_dir_b, (tt, []))
       = Throw (VisitorException "no") w
       ∧ w.2 = (tt, [["a"]]).
Proof. eexists. split; vm_compute; reflexivity. Qed.

(** In the order of a directory, each of its own files comes before
    every file that lies in one of its directories. *)
Lemma order_files_first (m : FileMap) (p : Path) (f d : PathFragment) (g : Path) :
  f ∈ dir_files m p → d ∈ dir_dirs m p → g ∈ order m (join p d) →
  ∃ l1 l2 l3, order m p = l1 ++ join p f :: l2 ++ g :: l3.
Proof.
  intros Hf Hd Hg. rewrite order_eq.
  assert (join p f ∈ map (join p) (dir_files m p)) as Hf'
    by by apply list_elem_of_fmap_2.
  assert (g ∈ flat_map (λ d, order m (join p d)) (dir_dirs m p)) as Hg'.
  { apply list_elem_of_In, in_flat_map. exists d. by rewrite <- !list_elem_of_In. }
  apply list_elem_of_split in Hf' as (a & b & ->).
  apply list_elem_of_split in Hg' as (c & e & ->).
  exists a, (b ++ c), e. by rewrite <- !app_assoc.
Qed.

(** C7: [visit] takes the files right in a directory before it goes down
    into any of its directories, and so on in each of them: the visitor
    is called on the files in the order of the root; the order of a
    directory is its own files ([subfiles]) followed by the orders of its
    directories ([subdirs]); so each file of a directory comes before
    every file of its directories. *)
Theorem visit_files_before_directories {S}
    (σ : Store) (this : nat) (visitor : FileVisitor S) (s : S) :
  well_formed (files σ this) → cache_ok σ this →
  (∀ p entry s0, (visitor p entry s0).2 = None) →
  (∃ σ' s', same_files σ σ'
            ∧ visit this (traced visitor) (σ, (s, []))
              = Ok tt (σ', (s', order (files σ this) [])))
  ∧ (∀ p, order (files σ this) p
          = map (join p) (dir_files (files σ this) p)
            ++ flat_map (λ d, order (files σ this) (join p d)) (dir_dirs (files σ this) p))
  ∧ (∀ entry,
       subfiles this entry σ = Ok (dir_files (files σ this) (dir_path entry)) σ
       ∧ subdirs this entry σ = Ok (dir_dirs (files σ this) (dir_path entry)) σ)
  ∧ (∀ p f d g,
       f ∈ dir_files (files σ this) p → d ∈ dir_dirs (files σ this) p →
       g ∈ order (files σ this) (join p d) →
       ∃ l1 l2 l3, order (files σ this) p = l1 ++ join p f :: l2 ++ g :: l3).
Proof.
  intros Hwf Hok Hquiet. split; [|split; [|split]].
  - destruct (visit_eq this (traced visitor) σ (s, []) Hwf Hok) as (σ' & Hsame & Hvisit).
    rewrite run_traced_all in Hvisit by done. eauto.
  - intros p. apply order_eq.
  - done.
  - intros p f d g. apply order_files_first.
Qed.

Lemma visit_files_before_directories_witness :
  ∃ σ' s', visit 0 (traced quiet) (store_a_dir_b, (tt, []))
           = Ok tt (σ', (s', [["a"]; ["dir"; "b"]])).
Proof.
  destruct (visit_files_before_directories store_a_dir_b 0 quiet tt)
    as [(σ' & s' & _ & Hvisit) _].
  - apply well_formedb_true. vm_compute. reflexivity.
  - apply cache_ok_empty. intros t Ht. vm_compute in Ht. by simplify_eq.
  - done.
  - exists σ', s'. rewrite Hvisit. reflexivity.
Defined.

(** * Further properties of the tree *)

(** ** Files and directories after a change *)

Lemma host_isDirectory_insert_any (m : FileMap) (p q : Path) (c : Buffer) :
  host_isDirectory (<[p := c]> m) q = host_isDirectory m q || below q p.
Proof.
  apply eq_true_iff_eq. rewrite orb_true_iff, !host_isDirectory_true. split.
  - intros (r & Hr & Hb). destruct (decide (r = p)) as [->|Hne]; [by right|].
    left. exists r. by rewrite lookup_insert_ne in Hr.
  - intros [(r & Hr & Hb)|Hb].
    + exists r. split; [|done]. destruct (decide (p = r)) as [->|Hne].
      * rewrite lookup_insert_eq. by eexists.
      * by rewrite lookup_insert_ne.
    + exists p. split; [|done]. rewrite lookup_insert_eq. by eexists.
Qed.

Lemma host_isDirectory_insert_file (m : FileMap) (p q : Path) (c : Buffer) :
  is_Some (m !! p) → host_isDirectory (<[p := c]> m) q = host_isDirectory m q.
Proof.
  intros Hp. rewrite host_isDirectory_insert_any.
  destruct (below q p) eqn:Hb; [|by rewrite orb_false_r].
  rewrite orb_true_r. symmetry. apply host_isDirectory_true. by exists p.
Qed.

Lemma host_isDirectory_delete (m : FileMap) (p q : Path) :
  host_isDirectory (base.delete p m) q = true → host_isDirectory m q = true.
Proof.
  rewrite !host_isDirectory_true. intros (r & Hr & Hb). exists r. split; [|done].
  apply lookup_delete_is_Some in Hr. tauto.
Qed.

(** Taking a file away leaves no file below another file. *)
Lemma well_formed_delete (m : FileMap) (p : Path) :
  well_formed m → well_formed (base.delete p m).
Proof.
  intros [Hroot Hwf]. split.
  - apply lookup_delete_None. by right.
  - intros q Hq. apply lookup_delete_is_Some in Hq as [_ Hq].
    apply not_true_is_false. intros Hdir%host_isDirectory_delete.
    by rewrite Hwf in Hdir.
Qed.

(** So does putting a file where there is room for it. *)
Lemma well_formed_insert (m : FileMap) (p : Path) (c : Buffer) :
  well_formed m → room_for m p → well_formed (<[p := c]> m).
Proof.
  intros [Hroot Hwf] (Hp & Hfree & Habove). split.
  - by rewrite lookup_insert_ne.
  - intros q Hq. rewrite host_isDirectory_insert_any.
    destruct (decide (p = q)) as [<-|Hne].
    + apply host_exists_false in Hfree as [_ ->]. by rewrite below_irrefl.
    + rewrite lookup_insert_ne in Hq by done. rewrite (Hwf q Hq). simpl.
      apply not_true_is_false. intros Hb. apply Habove in Hb.
      rewrite Hb in Hq. by destruct Hq.
Qed.

Lemma room_for_delete (m : FileMap) (f p : Path) :
  room_for m p → room_for (base.delete f m) p.
Proof.
  intros (Hp & Hfree & Habove). split; [done|]. split.
  - apply host_exists_false in Hfree as [Hnone Hdir]. apply host_exists_false. split.
    + apply lookup_delete_None. by right.
    + apply not_true_is_false. intros Hd%host_isDirectory_delete. congruence.
  - intros q Hq. apply lookup_delete_None. right. by apply Habove.
Qed.

(** X1: [overwrite] on a file appends an overwrite record, also when
    the content is the one the file has; afterwards the file has the new
    content, every other path has the content it had, and the same paths
    are directories.  On a path that is not there it throws
    [FileDoesNotExistException] and changes nothing. *)
Theorem overwrite_changes_one_content
    (σ : Store) (this : nat) (path : string) (content : Buffer) :
  this < length σ →
  match files σ this !! _normalizePath path with
  | Some old =>
      ∃ σ', overwrite this path content σ = Ok tt σ'
            ∧ records σ' this
              = records σ this ++ [overwrite_record (_normalizePath path) content]
            ∧ files σ' this !! _normalizePath path = Some content
            ∧ (∀ q, q ≠ _normalizePath path → files σ' this !! q = files σ this !! q)
            ∧ (∀ q, host_isDirectory (files σ' this) q
                    = host_isDirectory (files σ this) q)
  | None =>
      host_isDirectory (files σ this) (_normalizePath path) = false →
      overwrite this path content σ
      = Throw (FileDoesNotExistException (path_string (_normalizePath path))) σ
  end.
Proof.
  intros Hthis. set (p := _normalizePath path).
  destruct (files σ this !! p) as [old|] eqn:Hp.
  - exists (modify (add_record (overwrite_record p content)) this σ).
    pose proof (files_append this (overwrite_record p content) σ Hthis) as Hfiles.
    simpl in Hfiles. split; [|split; [|split; [|split]]].
    + unfold overwrite. fold p. rewrite overwrite_at_eq. unfold host_exists.
      by rewrite (proj2 (host_isFile_true _ _)) by by eexists.
    + by apply records_append.
    + by rewrite Hfiles, lookup_insert_eq.
    + intros q Hq. by rewrite Hfiles, lookup_insert_ne.
    + intros q. rewrite Hfiles. apply host_isDirectory_insert_file. by eexists.
  - intros Hdir. unfold overwrite. fold p. rewrite overwrite_at_eq.
    by rewrite (proj2 (host_exists_false _ _)).
Qed.

Lemma overwrite_changes_one_content_witness :
  ∃ σ', overwrite 0 "/a" "1" store_a_dir_b = Ok tt σ'
        ∧ records σ' 0 = records store_a_dir_b 0 ++ [overwrite_record ["a"] "1"]
        ∧ files σ' 0 !! ["a"] = Some "1"
        ∧ (∀ q, q ≠ ["a"] → files σ' 0 !! q = files store_a_dir_b 0 !! q)
        ∧ (∀ q, host_isDirectory (files σ' 0) q
                = host_isDirectory (files store_a_dir_b 0) q).
Proof.
  apply (overwrite_changes_one_content store_a_dir_b 0 "/a" "1"). simpl. lia.
Defined.

(** X2: on a tree where no file lies below another file, [delete] on
    a file appends a delete record; afterwards the file is there no more
    ([exists] is false, [read] gives null), every other path has the
    content it had, still no file lies below another file, and a second
    [delete] throws [FileDoesNotExistException].  On a path that is
    neither a file nor a directory [delete] throws that at once and
    changes nothing. *)
Theorem delete_removes_and_then_fails (σ : Store) (this : nat) (path : string) :
  this < length σ →
  well_formed (files σ this) →
  match files σ this !! _normalizePath path with
  | Some _ =>
      ∃ σ', delete this path σ = Ok tt σ'
            ∧ records σ' this = records σ this ++ [delete_record (_normalizePath path)]
            ∧ exists_ this path σ' = Ok false σ'
            ∧ read this path σ' = Ok None σ'
            ∧ (∀ q, q ≠ _normalizePath path → files σ' this !! q = files σ this !! q)
            ∧ well_formed (files σ' this)
            ∧ delete this path σ'
              = Throw (FileDoesNotExistException (path_string (_normalizePath path))) σ'
  | None =>
      host_isDirectory (files σ this) (_normalizePath path) = false →
      delete this path σ
      = Throw (FileDoesNotExistException (path_string (_normalizePath path))) σ
  end.
Proof.
  intros Hthis Hwf. set (p := _normalizePath path).
  destruct (files σ this !! p) as [c|] eqn:Hp.
  - exists (modify (add_record (delete_record p)) this σ).
    pose proof (files_append this (delete_record p) σ Hthis) as Hfiles.
    simpl in Hfiles.
    assert (files (modify (add_record (delete_record p)) this σ) this !! p = None) as Hgone.
    { rewrite Hfiles. apply lookup_delete_eq. }
    assert (host_isDirectory (files (modify (add_record (delete_record p)) this σ) this) p
            = false) as Hnodir.
    { rewrite Hfiles. apply not_true_is_false. intros Hd%host_isDirectory_delete.
      destruct Hwf as [_ Hwf]. rewrite Hwf in Hd by by eexists. done. }
    split; [|split; [|split; [|split; [|split; [|split]]]]].
    + unfold delete. fold p. rewrite record_delete_eq.
      by rewrite (proj2 (host_isFile_true _ _)) by by eexists.
    + by apply records_append.
    + rewrite exists_eq. fold p. f_equal. by apply host_isFile_false.
    + rewrite read_eq. fold p. by rewrite Hnodir, Hgone.
    + intros q Hq. rewrite Hfiles. by apply lookup_delete_ne.
    + rewrite Hfiles. by apply well_formed_delete.
    + unfold delete. fold p. rewrite record_delete_eq.
      by rewrite (proj2 (host_isFile_false _ _)).
  - intros _. unfold delete. fold p. rewrite record_delete_eq.
    by rewrite (proj2 (host_isFile_false _ _)).
Qed.

Lemma delete_removes_and_then_fails_witness :
  ∃ σ', delete 0 "/a" store_a_dir_b = Ok tt σ'
        ∧ records σ' 0 = records store_a_dir_b 0 ++ [delete_record ["a"]]
        ∧ exists_ 0 "/a" σ' = Ok false σ'
        ∧ read 0 "/a" σ' = Ok None σ'
        ∧ (∀ q, q ≠ ["a"] → files σ' 0 !! q = files store_a_dir_b 0 !! q)
        ∧ well_formed (files σ' 0)
        ∧ delete 0 "/a" σ' = Throw (FileDoesNotExistException "/a") σ'.
Proof.
  apply (delete_removes_and_then_fails store_a_dir_b 0 "/a").
  - simpl. lia.
  - apply well_formedb_true. vm_compute. reflexivity.
Defined.

(** X3: on a tree where no file lies below another file, [create] on
    a path that has room for a file (it is not the root, nothing is at
    it or below it, no file lies above it) puts the content there and
    leaves the content of every other path as it was; the directories
    afterwards are the ones there were and the paths above the new file,
    on which [get] throws [PathIsDirectoryException] from then on; and
    still no file lies below another file. *)
Theorem create_adds_one_file_and_its_directories
    (σ : Store) (this : nat) (path : string) (content : Buffer) :
  this < length σ →
  well_formed (files σ this) →
  room_for (files σ this) (_normalizePath path) →
  ∃ σ', create this path content σ = Ok tt σ'
        ∧ files σ' this !! _normalizePath path = Some content
        ∧ (∀ q, q ≠ _normalizePath path → files σ' this !! q = files σ this !! q)
        ∧ (∀ q, host_isDirectory (files σ' this) q
                = host_isDirectory (files σ this) q || below q (_normalizePath path))
        ∧ (∀ q, below q (_normalizePath path) = true →
                get_at this q σ' = Throw (PathIsDirectoryException (path_string q)) σ')
        ∧ well_formed (files σ' this).
Proof.
  intros Hthis Hwf Hroom. set (p := _normalizePath path) in *.
  pose proof Hroom as (_ & He & _).
  exists (modify (add_record (create_record p content)) this σ).
  pose proof (files_append this (create_record p content) σ Hthis) as Hfiles.
  simpl in Hfiles. split; [|split; [|split; [|split; [|split]]]].
  - unfold create. fold p. rewrite record_exists_eq, He.
    by rewrite subscribe_record_create, He.
  - by rewrite Hfiles, lookup_insert_eq.
  - intros q Hq. by rewrite Hfiles, lookup_insert_ne.
  - intros q. by rewrite Hfiles, host_isDirectory_insert_any.
  - intros q Hq. rewrite get_at_eq, Hfiles, host_isDirectory_insert_any, Hq.
    by rewrite orb_true_r.
  - rewrite Hfiles. by apply well_formed_insert.
Qed.

Lemma create_adds_one_file_and_its_directories_witness :
  ∃ σ', create 0 "/new/c" "3" store_a_dir_b = Ok tt σ'
        ∧ files σ' 0 !! _normalizePath "/new/c" = Some "3"
        ∧ (∀ q, q ≠ _normalizePath "/new/c" →
                files σ' 0 !! q = files store_a_dir_b 0 !! q)
        ∧ (∀ q, host_isDirectory (files σ' 0) q
                = host_isDirectory (files store_a_dir_b 0) q
                  || below q (_normalizePath "/new/c"))
        ∧ (∀ q, below q (_normalizePath "/new/c") = true →
                get_at 0 q σ' = Throw (PathIsDirectoryException (path_string q)) σ')
        ∧ well_formed (files σ' 0).
Proof.
  apply (create_adds_one_file_and_its_directories store_a_dir_b 0 "/new/c" "3").
  - simpl. lia.
  - apply well_formedb_true. vm_compute. reflexivity.
  - split; [done|]. split; [vm_compute; reflexivity|].
    intros q (x & k & Hk)%below_true.
    change (_normalizePath "/new/c") with ["new"; "c"] in Hk.
    destruct q as [|a [|b q]]; simpl in Hk.
    + vm_compute. reflexivity.
    + injection Hk as <- _. vm_compute. reflexivity.
    + injection Hk as _ _ Hk. by destruct q.
Defined.

(** X4: on a path that is a file and no directory, [exists] is true,
    [read] gives the content, [get] gives the entry with the normalized
    path and [getDir] throws [PathIsFileException]; on a path that is
    neither a file nor a directory, [exists] is false and [read] and
    [get] give null.  None of them changes the store. *)
Theorem queries_on_a_file_and_on_a_missing_path (σ : Store) (this : nat) (path : string) :
  host_isDirectory (files σ this) (_normalizePath path) = false →
  match files σ this !! _normalizePath path with
  | Some content =>
      exists_ this path σ = Ok true σ
      ∧ read this path σ = Ok (Some content) σ
      ∧ get this path σ = Ok (Some (LazyFileEntry (_normalizePath path) content)) σ
      ∧ getDir this path σ
        = Throw (PathIsFileException (path_string (_normalizePath path))) σ
  | None =>
      exists_ this path σ = Ok false σ
      ∧ read this path σ = Ok None σ
      ∧ get this path σ = Ok None σ
  end.
Proof.
  intros Hdir. set (p := _normalizePath path) in *.
  destruct (files σ this !! p) as [content|] eqn:Hp.
  - split; [|split; [|split]].
    + rewrite exists_eq. fold p. f_equal. apply host_isFile_true. by eexists.
    + rewrite read_eq. fold p. by rewrite Hdir, Hp.
    + unfold get. fold p. by rewrite get_at_eq, Hdir, Hp.
    + unfold getDir, getDir_at. fold p. rewrite getDir_rev_eq, rev_involutive.
      by rewrite (proj2 (host_isFile_true _ _)) by by eexists.
  - split; [|split].
    + rewrite exists_eq. fold p. f_equal. by apply host_isFile_false.
    + rewrite read_eq. fold p. by rewrite Hdir, Hp.
    + unfold get. fold p. by rewrite get_at_eq, Hdir, Hp.
Qed.

Lemma queries_on_a_file_and_on_a_missing_path_witness :
  exists_ 0 "/a" store_a_dir_b = Ok true store_a_dir_b
  ∧ read 0 "/a" store_a_dir_b = Ok (Some "1") store_a_dir_b
  ∧ get 0 "/a" store_a_dir_b
    = Ok (Some (LazyFileEntry (_normalizePath "/a") "1")) store_a_dir_b
  ∧ getDir 0 "/a" store_a_dir_b
    = Throw (PathIsFileException (path_string (_normalizePath "/a"))) store_a_dir_b.
Proof.
  apply (queries_on_a_file_and_on_a_missing_path store_a_dir_b 0 "/a").
  vm_compute. reflexivity.
Defined.

Lemma walk_no_patch (i : nat) (content : string) : walk [] i content = content.
Proof.
  revert i. induction content as [|b rest IH]; intros i; [done|].
  change (String b (walk [] (Datatypes.S i) rest) = String b rest). by rewrite IH.
Qed.

(** X5: [beginUpdate] throws [PathIsDirectoryException] on a directory
    and [FileDoesNotExistException], with the path as the caller wrote
    it, on a path that is not there; on a file it gives a recorder for
    the normalized path and changes nothing.  Committing that recorder
    with no edit recorded appends an overwrite record with the content
    the file has, and every path keeps its content. *)
Theorem beginUpdate_then_commitUpdate_without_edit
    (σ : Store) (this : nat) (path : string) :
  this < length σ →
  if host_isDirectory (files σ this) (_normalizePath path)
  then beginUpdate this path σ
       = Throw (PathIsDirectoryException (path_string (_normalizePath path))) σ
  else match files σ this !! _normalizePath path with
       | None => beginUpdate this path σ = Throw (FileDoesNotExistException path) σ
       | Some content =>
           let recorder := recorder_base (mkUpdateRecorderBase (_normalizePath path) []) in
           beginUpdate this path σ = Ok recorder σ
           ∧ ∃ σ', commitUpdate this recorder σ = Ok tt σ'
                   ∧ records σ' this
                     = records σ this ++ [overwrite_record (_normalizePath path) content]
                   ∧ files σ' this = files σ this
       end.
Proof.
  intros Hthis. set (p := _normalizePath path).
  unfold beginUpdate, get, and_then, bind. fold p. rewrite get_at_eq.
  destruct (host_isDirectory (files σ this) p) eqn:Hdir; [done|].
  destruct (files σ this !! p) as [content|] eqn:Hp; [|done].
  split; [done|].
  exists (modify (add_record (overwrite_record p content)) this σ).
  split; [|split].
  - unfold commitUpdate, and_then, bind. simpl. rewrite get_at_eq, Hdir, Hp. simpl.
    unfold recorder_apply. simpl. rewrite walk_no_patch, overwrite_at_eq.
    unfold host_exists. by rewrite (proj2 (host_isFile_true _ _)) by by eexists.
  - by apply records_append.
  - rewrite files_append by done. simpl. by apply insert_id.
Qed.

Lemma beginUpdate_then_commitUpdate_without_edit_witness :
  let recorder := recorder_base (mkUpdateRecorderBase ["a"] []) in
  beginUpdate 0 "/a" store_a = Ok recorder store_a
  ∧ ∃ σ', commitUpdate 0 recorder store_a = Ok tt σ'
          ∧ records σ' 0 = records store_a 0 ++ [overwrite_record ["a"] "abcdef"]
          ∧ files σ' 0 = files store_a 0.
Proof.
  apply (beginUpdate_then_commitUpdate_without_edit store_a 0 "/a"). simpl. lia.
Defined.

(** ** [rename] *)

(** X6: on a tree where no file lies below another file, [rename] of a
    file to a path that has room for a file appends a rename record,
    after which the target has the content the source had, the source is
    there no more, every other path has the content it had and still no
    file lies below another file.  With nothing at the source and
    nothing at the target it throws [FileDoesNotExistException]; with a
    file at the source and something at the target it throws
    [FileAlreadyExistException]; whenever it throws it changes
    nothing. *)
Theorem rename_moves_the_content (σ : Store) (this : nat) (from to : string) :
  this < length σ →
  well_formed (files σ this) →
  (∀ c, files σ this !! _normalizePath from = Some c →
        room_for (files σ this) (_normalizePath to) →
        ∃ σ', rename this from to σ = Ok tt σ'
              ∧ records σ' this
                = records σ this ++ [rename_record (_normalizePath from) (_normalizePath to)]
              ∧ files σ' this !! _normalizePath to = Some c
              ∧ files σ' this !! _normalizePath from = None
              ∧ (∀ q, q ≠ _normalizePath from → q ≠ _normalizePath to →
                      files σ' this !! q = files σ this !! q)
              ∧ well_formed (files σ' this))
  ∧ (host_exists (files σ this) (_normalizePath from) = false →
     host_exists (files σ this) (_normalizePath to) = false →
     rename this from to σ
     = Throw (FileDoesNotExistException (path_string (_normalizePath from))) σ)
  ∧ (is_Some (files σ this !! _normalizePath from) →
     host_exists (files σ this) (_normalizePath to) = true →
     rename this from to σ
     = Throw (FileAlreadyExistException (path_string (_normalizePath to))) σ)
  ∧ (∀ e σ', rename this from to σ = Throw e σ' → σ' = σ).
Proof.
  intros Hthis Hwf. set (f := _normalizePath from). set (t := _normalizePath to).
  unfold rename, rename_at. fold f t. rewrite record_rename_eq.
  split; [|split; [|split]].
  - intros c Hc Hroom. pose proof Hroom as (_ & Ht & _).
    rewrite (proj2 (host_isFile_true _ _)) by by eexists. simpl. rewrite Ht.
    exists (modify (add_record (rename_record f t)) this σ).
    pose proof (files_append this (rename_record f t) σ Hthis) as Hfiles.
    simpl in Hfiles. rewrite Hc in Hfiles.
    assert (t ≠ f) as Hne.
    { intros Heq. apply host_exists_false in Ht as [Ht _]. congruence. }
    split; [done|]. split; [by apply records_append|].
    split; [by rewrite Hfiles, lookup_insert_eq|]. split; [|split].
    + rewrite Hfiles, lookup_insert_ne by done. apply lookup_delete_eq.
    + intros q Hqf Hqt. rewrite Hfiles, lookup_insert_ne by done.
      by apply lookup_delete_ne.
    + rewrite Hfiles. apply well_formed_insert; [by apply well_formed_delete|].
      by apply room_for_delete.
  - intros [Hf _]%host_exists_false _.
    by rewrite (proj2 (host_isFile_false _ _)).
  - intros Hf ->. by rewrite (proj2 (host_isFile_true _ _)).
  - intros e σ'. destruct (negb _); [by intros [= _ <-]|].
    destruct (host_exists _ t); [by intros [= _ <-]|done].
Qed.

Lemma rename_moves_the_content_witness :
  ∃ σ', rename 0 "/a" "/z" store_a_dir_b = Ok tt σ'
        ∧ records σ' 0 = records store_a_dir_b 0 ++ [rename_record ["a"] ["z"]]
        ∧ files σ' 0 !! ["z"] = Some "1"
        ∧ files σ' 0 !! ["a"] = None
        ∧ (∀ q, q ≠ ["a"] → q ≠ ["z"] → files σ' 0 !! q = files store_a_dir_b 0 !! q)
        ∧ well_formed (files σ' 0).
Proof.
  refine (proj1 (rename_moves_the_content store_a_dir_b 0 "/a" "/z" _ _) "1" _ _).
  - simpl. lia.
  - apply well_formedb_true. vm_compute. reflexivity.
  - reflexivity.
  - split; [done|]. split; [vm_compute; reflexivity|].
    intros q (x & k & Hk)%below_true.
    change (_normalizePath "/z") with ["z"] in Hk.
    destruct q as [|a q]; simpl in Hk.
    + vm_compute. reflexivity.
    + injection Hk as _ Hk. by destruct q.
Defined.

(** ** [getDir] *)

Lemma records_modify_cache (p : Path) (e : HostDirEntry) (this id : nat) (σ : Store) :
  records (modify (add_cached p e) this σ) id = records σ id.
Proof.
  unfold records. destruct (decide (this = id)) as [->|Hne].
  - rewrite tree_at_modify. by destruct (tree_at σ id).
  - by rewrite tree_at_modify_ne.
Qed.

Lemma cache_lookup_add_cached (p : Path) (e : HostDirEntry) (this : nat) (σ : Store) :
  this < length σ → cache_lookup (modify (add_cached p e) this σ) this p = Some e.
Proof.
  intros Hthis. unfold cache_lookup. rewrite tree_at_modify.
  destruct (tree_at_lt σ this Hthis) as [t ->]. simpl. by rewrite lookup_insert_eq.
Qed.

Lemma add_cached_canonical (this : nat) (p : Path) (σ : Store) :
  cache_canonical σ this →
  cache_canonical (modify (add_cached p (entry_at p)) this σ) this.
Proof.
  intros Hok t q e'. rewrite tree_at_modify.
  destruct (tree_at σ this) as [t0|] eqn:Ht; [|done]. intros [= <-]. simpl.
  destruct (decide (p = q)) as [<-|Hne].
  - rewrite lookup_insert_eq. by intros [= <-].
  - rewrite lookup_insert_ne by done. by apply Hok.
Qed.

Lemma entry_at_path (p : Path) : dir_path (entry_at p) = p.
Proof.
  unfold entry_at. destruct (rev p) as [|x rp] eqn:Hrev; simpl.
  - by apply (f_equal (@rev string)) in Hrev; rewrite rev_involutive in Hrev.
  - change (rev rp ++ [x]) with (rev (x :: rp)). by rewrite <- Hrev, rev_involutive.
Qed.

Lemma entry_at_parent (q : Path) (x : PathFragment) :
  dir_parent (entry_at (join q x)) = Some (entry_at q).
Proof. unfold entry_at, join. by rewrite rev_unit. Qed.

Lemma getDir_rev_canonical (this : nat) (rp : list string) (σ : Store) :
  this < length σ →
  (∀ q, q `prefix_of` rev rp → files σ this !! q = None) →
  cache_canonical σ this →
  ∃ σ', getDir_rev this rp σ = Ok (entry_rev rp) σ'
        ∧ cache_canonical σ' this ∧ same_files σ σ'
        ∧ (∀ id, records σ' id = records σ id)
        ∧ length σ' = length σ
        ∧ cache_lookup σ' this (rev rp) = Some (entry_rev rp).
Proof.
  intros Hthis. revert σ Hthis.
  assert (∀ (σ : Store) (p : Path) (e : HostDirEntry),
            cache_canonical σ this → cache_lookup σ this p = Some e → e = entry_at p)
    as Hhit.
  { intros σ p e Hok He. unfold cache_lookup in He.
    destruct (tree_at σ this) eqn:Ht; [by eapply Hok|done]. }
  induction rp as [|x rp IH]; intros σ Hthis Hnofile Hok;
    rewrite getDir_rev_eq;
    rewrite (proj2 (host_isFile_false _ _)) by (by apply Hnofile);
    destruct (cache_lookup σ this _) as [e|] eqn:He.
  - pose proof (Hhit _ _ _ Hok He) as Heq. subst e.
    exists σ. split; [done|]. split; [done|]. split; [apply same_files_refl|].
    by split; [|split].
  - eexists. split; [done|]. split; [apply (add_cached_canonical this [] σ Hok)|].
    split; [intros id; by apply files_modify_cache|].
    split; [intros id; apply records_modify_cache|].
    split; [apply length_modify|]. by apply cache_lookup_add_cached.
  - pose proof (Hhit _ _ _ Hok He) as Heq. unfold entry_at in Heq.
    rewrite rev_involutive in Heq. subst e.
    exists σ. split; [done|]. split; [done|]. split; [apply same_files_refl|].
    by split; [|split].
  - destruct (IH σ Hthis) as (σ1 & -> & Hok1 & Hsame1 & Hrec1 & Hlen1 & _); [|done|].
    { intros q Hq. apply Hnofile. simpl. by apply prefix_app_r. }
    eexists. split; [done|].
    pose proof (add_cached_canonical this (rev (x :: rp)) σ1 Hok1) as Hok2.
    unfold entry_at in Hok2. rewrite rev_involutive in Hok2.
    split; [exact Hok2|]. split.
    { intros id. rewrite files_modify_cache; [apply Hsame1|done]. }
    split; [intros id; by rewrite records_modify_cache|].
    split; [by rewrite length_modify|].
    apply cache_lookup_add_cached. by rewrite Hlen1.
Qed.

Lemma cache_canonical_empty (σ : Store) (this : nat) :
  (∀ t, tree_at σ this = Some t → _dirCache t = ∅) → cache_canonical σ this.
Proof. intros Hempty t q e Ht. by rewrite (Hempty t Ht), lookup_empty. Qed.

(** X7: on a path with no file at it or above it, whether something is
    there or not, [getDir] gives the entry of the path, whose parent is
    the entry of its [dirname] and so on up to the root, which has none.
    It changes no tree's files or records, only the cache: the same call
    again gives the same entry and leaves the store as it is. *)
Theorem getDir_gives_the_entry_and_caches_it (σ : Store) (this : nat) (path : string) :
  this < length σ →
  cache_canonical σ this →
  (∀ q, q `prefix_of` _normalizePath path → files σ this !! q = None) →
  ∃ σ', getDir this path σ = Ok (entry_at (_normalizePath path)) σ'
        ∧ dir_path (entry_at (_normalizePath path)) = _normalizePath path
        ∧ same_files σ σ'
        ∧ (∀ id, records σ' id = records σ id)
        ∧ cache_canonical σ' this
        ∧ getDir this path σ' = Ok (entry_at (_normalizePath path)) σ'
  ∧ dir_parent (entry_at []) = None
  ∧ ∀ q x, dir_parent (entry_at (join q x)) = Some (entry_at q).
Proof.
  intros Hthis Hok Hnofile. set (p := _normalizePath path) in *.
  destruct (getDir_rev_canonical this (rev p) σ Hthis)
    as (σ' & Hget & Hok' & Hsame & Hrec & Hlen & Hcached); [by rewrite rev_involutive|done|].
  rewrite rev_involutive in Hcached.
  exists σ'. split; [exact Hget|]. split; [apply entry_at_path|].
  split; [done|]. split; [done|]. split; [done|]. split; [|split].
  - unfold getDir, getDir_at. fold p. rewrite getDir_rev_eq, rev_involutive.
    rewrite Hsame, (proj2 (host_isFile_false _ _)) by by apply Hnofile.
    by rewrite Hcached.
  - done.
  - apply entry_at_parent.
Qed.

Lemma getDir_gives_the_entry_and_caches_it_witness :
  ∃ σ', getDir 0 "/dir" store_a_dir_b = Ok (entry_at (_normalizePath "/dir")) σ'
        ∧ dir_path (entry_at (_normalizePath "/dir")) = _normalizePath "/dir"
        ∧ same_files store_a_dir_b σ'
        ∧ (∀ id, records σ' id = records store_a_dir_b id)
        ∧ cache_canonical σ' 0
        ∧ getDir 0 "/dir" σ' = Ok (entry_at (_normalizePath "/dir")) σ'
  ∧ dir_parent (entry_at []) = None
  ∧ ∀ q x, dir_parent (entry_at (join q x)) = Some (entry_at q).
Proof.
  apply (getDir_gives_the_entry_and_caches_it store_a_dir_b 0 "/dir").
  - simpl. lia.
  - apply cache_canonical_empty. intros t Ht. vm_compute in Ht. by simplify_eq.
  - intros q [k Hk]. change (_normalizePath "/dir") with ["dir"] in Hk.
    destruct q as [|x [|y q]].
    + vm_compute. reflexivity.
    + injection Hk as <- _. vm_compute. reflexivity.
    + injection Hk as _ Hk. discriminate Hk.
Defined.

(** ** [actions] *)

Lemma clean_action_of (this : nat) (rs : list CordHostRecord) :
  map Some (clean (map (action_of this) rs)) = map (action_of this) rs.
Proof.
  unfold clean. induction rs as [|r rs IH]; [done|].
  destruct r; simpl; f_equal; apply IH.
Qed.

Lemma action_of_id (this : nat) (rs : list CordHostRecord) :
  Forall (λ a, id a = this ∧ parent a = 0) (clean (map (action_of this) rs)).
Proof.
  unfold clean. induction rs as [|r rs IH]; [by constructor|].
  destruct r; simpl; by constructor.
Qed.

(** X8: [actions] gives one action for every record of the tree, in the
    order of the records and with none dropped; each carries the id of
    the tree and the parent field [0].  So the tree passes over all of
    them when they are merged into it, and no other tree passes over any
    of them. *)
Theorem actions_are_the_records_under_the_tree_id (σ : Store) (this : nat) :
  ∃ acts, actions this σ = Ok acts σ
          ∧ map Some acts = map (action_of this) (records σ this)
          ∧ Forall (λ a, id a = this ∧ parent a = 0) acts
          ∧ (∀ overwriteBit creationBit deleteBit strategy,
               merge_actions overwriteBit creationBit deleteBit this strategy acts σ
               = Ok tt σ)
          ∧ (∀ that, that ≠ this → Forall (λ a, id a ≠ that) acts).
Proof.
  exists (clean (map (action_of this) (records σ this))).
  pose proof (action_of_id this (records σ this)) as Hown.
  split; [done|]. split; [apply clean_action_of|]. split; [done|]. split.
  - intros ob cb db strategy. unfold merge_actions.
    induction Hown as [|a acts [Ha _] Hown IH]; [done|].
    by rewrite forEach_cons, merge_action_own.
  - intros that Hthat. eapply Forall_impl; [exact Hown|].
    intros a [Ha _]. congruence.
Qed.

Lemma actions_are_the_records_under_the_tree_id_witness :
  ∃ acts, actions 0 store_a_dir_b = Ok acts store_a_dir_b
          ∧ map Some acts = map (action_of 0) (records store_a_dir_b 0)
          ∧ Forall (λ a, id a = 0 ∧ parent a = 0) acts
          ∧ Forall (λ a, id a ≠ 1) acts.
Proof.
  destruct (actions_are_the_records_under_the_tree_id store_a_dir_b 0)
    as (acts & Hacts & Hrecords & Hown & _ & Hother).
  exists acts. split; [done|]. split; [done|]. split; [done|]. apply Hother. lia.
Defined.

(** ** [merge] as a whole *)

(** X9: [merge] carries over the records of the other tree and nothing
    of what the other tree reads through to: a tree with no record of
    its own, whatever files it shows, merges into any tree with no
    change and no conflict, under every strategy.  A branch is such a
    tree until it is changed. *)
Theorem merge_of_a_tree_without_records_changes_nothing
    (overwriteBit creationBit deleteBit : Z) (σ : Store) (this other : nat) (strategy : Z) :
  records σ other = [] →
  actions other σ = Ok [] σ
  ∧ merge overwriteBit creationBit deleteBit this other strategy σ = Ok tt σ
  ∧ ∃ b σ', branch other σ = Ok b σ'
            ∧ records σ' b = []
            ∧ merge overwriteBit creationBit deleteBit this b strategy σ' = Ok tt σ'.
Proof.
  intros Hnone.
  assert (∀ (σ0 : Store) that, records σ0 that = [] →
            merge overwriteBit creationBit deleteBit this that strategy σ0 = Ok tt σ0) as Hmerge.
  { intros σ0 that H0. unfold merge. case_bool_decide; [done|].
    unfold and_then, bind, actions, query. by rewrite H0. }
  split; [unfold actions, query; by rewrite Hnone|]. split; [by apply Hmerge|].
  exists (length σ), (mkHostTree (RecordBackend other) [] ∅ :: σ).
  assert (records (mkHostTree (RecordBackend other) [] ∅ :: σ) (length σ) = []) as Hfresh.
  { unfold records. simpl. by rewrite bool_decide_eq_true_2. }
  split; [done|]. split; [done|]. by apply Hmerge.
Qed.

Lemma merge_of_a_tree_without_records_changes_nothing_witness :
  let σ := [mkHostTree (RecordBackend 0) [] ∅;
            mkHostTree (RecordBackend 0) [create_record ["x"] "one"] ∅;
            mkHostTree EmptyBackend [create_record ["a"] "0"] ∅] in
  files σ 2 !! ["a"] = Some "0"
  ∧ actions 2 σ = Ok [] σ
  ∧ merge 1 2 3 1 2 Default σ = Ok tt σ
  ∧ ∃ b σ', branch 2 σ = Ok b σ'
            ∧ records σ' b = []
            ∧ merge 1 2 3 1 b Default σ' = Ok tt σ'.
Proof.
  split; [reflexivity|].
  apply (merge_of_a_tree_without_records_changes_nothing 1 2 3
           [mkHostTree (RecordBackend 0) [] ∅;
            mkHostTree (RecordBackend 0) [create_record ["x"] "one"] ∅;
            mkHostTree EmptyBackend [create_record ["a"] "0"] ∅] 1 2 Default).
  reflexivity.
Defined.

(** An action that throws leaves the store as it was. *)
Lemma merge_action_throw
    (overwriteBit creationBit deleteBit : Z) (this : nat) (strategy : Z)
    (action : Action) (e : Exception) (σ σ' : Store) :
  merge_action overwriteBit creationBit deleteBit this strategy action σ = Throw e σ' →
  σ' = σ.
Proof.
  unfold merge_action. case_bool_decide; [done|].
  destruct (body action) as [path content|path content|path to|path].
  - rewrite willCreate_eq, willOverwrite_eq.
    destruct (_ || _).
    + destruct (negb _); [by intros [= _ <-]|].
      by rewrite subscribe_record_overwrite.
    + by rewrite subscribe_record_create.
  - rewrite willOverwrite_eq. destruct (_ && _); [by intros [= _ <-]|].
    by rewrite subscribe_record_overwrite.
  - unfold and_then, bind, willRename, query.
    destruct (existsb _ _); [by intros [= _ <-]|].
    unfold rename_at. rewrite record_rename_eq.
    destruct (negb _); [by intros [= _ <-]|].
    destruct (host_exists _ _); [by intros [= _ <-]|done].
  - rewrite willDelete_eq. destruct (_ && _); [by intros [= _ <-]|].
    rewrite record_delete_eq. destruct (host_isFile _ _); [done|by intros [= _ <-]].
Qed.

Lemma forEach_throw {Σ A} (callback : A → M Σ unit) (l : list A) (e : Exception) (σ σ' : Σ) :
  (∀ x e0 σ0 σ1, callback x σ0 = Throw e0 σ1 → σ1 = σ0) →
  forEach l callback σ = Throw e σ' →
  ∃ before x rest, l = before ++ x :: rest
                   ∧ forEach before callback σ = Ok tt σ'
                   ∧ callback x σ' = Throw e σ'.
Proof.
  intros Hatomic. revert σ. induction l as [|x l IH]; intros σ; [done|].
  rewrite forEach_cons. destruct (callback x σ) as [[] σ1|e1 σ1|] eqn:Hx; [| |done].
  - intros Hl. destruct (IH σ1 Hl) as (before & y & rest & -> & Hbefore & Hy).
    exists (x :: before), y, rest. split; [done|]. split; [|done].
    by rewrite forEach_cons, Hx.
  - intros [= -> ->]. pose proof (Hatomic _ _ _ _ Hx) as ->.
    exists [], x, l. by split.
Qed.

(** X10: [merge] is not undone when it throws.  It throws exactly when
    one action of the other tree throws, in the store that the actions
    before it have left: what those have changed stays changed, the
    action that throws and the actions after it change nothing.  (A
    create or an overwrite that this tree's host does not take is no
    throw: the merge goes on.) *)
Theorem merge_throws_with_the_earlier_actions_applied
    (overwriteBit creationBit deleteBit : Z) (σ σ' : Store) (this other : nat)
    (strategy : Z) (e : Exception) :
  other ≠ this →
  merge overwriteBit creationBit deleteBit this other strategy σ = Throw e σ'
  ↔ ∃ before action rest,
      actions other σ = Ok (before ++ action :: rest) σ
      ∧ merge_actions overwriteBit creationBit deleteBit this strategy before σ = Ok tt σ'
      ∧ merge_action overwriteBit creationBit deleteBit this strategy action σ' = Throw e σ'.
Proof.
  intros Hother. unfold merge. rewrite bool_decide_eq_false_2 by done.
  unfold and_then, bind, actions at 1, query, merge_actions. split.
  - intros Hthrow. apply forEach_throw in Hthrow as (before & a & rest & Hacts & Hbefore & Ha).
    + exists before, a, rest. unfold actions, query. by rewrite Hacts.
    + intros a e0 σ0 σ1. apply merge_action_throw.
  - intros (before & a & rest & Hacts & Hbefore & Ha).
    unfold actions, query in Hacts. injection Hacts as ->.
    by rewrite forEach_app, Hbefore, forEach_cons, Ha.
Qed.

Lemma merge_throws_with_the_earlier_actions_applied_witness :
  let other := mkHostTree (RecordBackend 0)
                 [create_record ["y"] "new"; create_record ["x"] "two"] ∅ in
  let base := mkHostTree EmptyBackend [create_record ["a"] "0"] ∅ in
  let σ := [other; mkHostTree (RecordBackend 0) [create_record ["x"] "one"] ∅; base] in
  let σ' := [other;
             mkHostTree (RecordBackend 0)
               [create_record ["x"] "one"; create_record ["y"] "new"] ∅;
             base] in
  merge 1 2 3 1 2 Default σ = Throw (MergeConflictException "/x") σ'
  ∧ files σ 1 !! ["y"] = None
  ∧ files σ' 1 !! ["y"] = Some "new".
Proof.
  split; [|split; reflexivity].
  apply merge_throws_with_the_earlier_actions_applied; [lia|].
  exists [mkAction 2 0 (CreateFileAction ["y"] "new")],
         (mkAction 2 0 (CreateFileAction ["x"] "two")), [].
  split; [reflexivity|]. split; vm_compute; reflexivity.
Defined.

(** X11: there is no allowance for renames.  When [merge] comes to a
    rename record of the other tree, on a path that this tree has a
    rename pending on, it throws [MergeConflictException] with that path
    under every strategy; what the records before it have changed stays
    changed. *)
Theorem merge_rename_action_conflicts_under_every_strategy
    (overwriteBit creationBit deleteBit : Z) (σ σ1 : Store) (this other : nat)
    (strategy : Z) (path target : Path) (earlier later : list CordHostRecord) :
  other ≠ this →
  records σ other = earlier ++ rename_record path target :: later →
  merge_actions overwriteBit creationBit deleteBit this strategy
    (clean (map (action_of other) earlier)) σ = Ok tt σ1 →
  existsb (renames path) (records σ1 this) = true →
  merge overwriteBit creationBit deleteBit this other strategy σ
  = Throw (MergeConflictException (path_string path)) σ1.
Proof.
  intros Hother Hrecords Hearlier Hpending.
  rewrite (merge_run _ _ _ _ _ _ _ _ _ _ _ (mkAction other 0 (RenameFileAction path target))
             Hother Hrecords eq_refl Hearlier).
  unfold merge_action. cbn [id body]. rewrite bool_decide_eq_false_2 by done.
  unfold and_then, bind, willRename, query. by rewrite Hpending.
Qed.

Lemma merge_rename_action_conflicts_under_every_strategy_witness :
  let σ := [mkHostTree (RecordBackend 0) [rename_record ["a"] ["y"]] ∅;
            mkHostTree (RecordBackend 0) [rename_record ["a"] ["z"]] ∅;
            mkHostTree EmptyBackend [create_record ["a"] "0"] ∅] in
  merge 1 2 3 1 2 14%Z σ = Throw (MergeConflictException "/a") σ.
Proof.
  apply (merge_rename_action_conflicts_under_every_strategy 1 2 3 _ _ 1 2 14%Z
           ["a"] ["y"] [] []);
    [lia|reflexivity|reflexivity|reflexivity].
Defined.

(** X12: the creation and the overwrite allowance of a strategy are the
    bits of their flags.  Strategies put together with [|] allow what
    one of them allows; each flag allows its own kind of conflict and not
    the other; the strategy with no bit set allows nothing. *)
Theorem allowances_are_the_bits_of_the_strategy
    (overwriteBit creationBit : Z) (s1 s2 : Z) :
  (0 ≤ overwriteBit)%Z → (0 ≤ creationBit)%Z → overwriteBit ≠ creationBit →
  creationConflictAllowed creationBit (Z.lor s1 s2)
  = creationConflictAllowed creationBit s1 || creationConflictAllowed creationBit s2
  ∧ overwriteConflictAllowed overwriteBit (Z.lor s1 s2)
    = overwriteConflictAllowed overwriteBit s1 || overwriteConflictAllowed overwriteBit s2
  ∧ creationConflictAllowed creationBit (AllowCreationConflict creationBit) = true
  ∧ overwriteConflictAllowed overwriteBit (AllowOverwriteConflict overwriteBit) = true
  ∧ creationConflictAllowed creationBit (AllowOverwriteConflict overwriteBit) = false
  ∧ overwriteConflictAllowed overwriteBit (AllowCreationConflict creationBit) = false
  ∧ creationConflictAllowed creationBit Default = false
  ∧ overwriteConflictAllowed overwriteBit Default = false.
Proof.
  intros Ho Hc Hne.
  rewrite !creationConflictAllowed_testbit, ?overwriteConflictAllowed_testbit by done.
  unfold AllowCreationConflict, AllowOverwriteConflict, Default.
  rewrite !Z.lor_spec, !Z.shiftl_1_l, !Z.pow2_bits_eqb, !Z.bits_0 by done.
  rewrite !Z.eqb_refl.
  rewrite (proj2 (Z.eqb_neq overwriteBit creationBit)) by done.
  rewrite (proj2 (Z.eqb_neq creationBit overwriteBit)) by done.
  done.
Qed.

Lemma allowances_are_the_bits_of_the_strategy_witness :
  creationConflictAllowed 2 (Z.lor (AllowOverwriteConflict 1) (AllowCreationConflict 2))
  = creationConflictAllowed 2 (AllowOverwriteConflict 1)
    || creationConflictAllowed 2 (AllowCreationConflict 2)
  ∧ overwriteConflictAllowed 1 (Z.lor (AllowOverwriteConflict 1) (AllowCreationConflict 2))
    = overwriteConflictAllowed 1 (AllowOverwriteConflict 1)
      || overwriteConflictAllowed 1 (AllowCreationConflict 2)
  ∧ creationConflictAllowed 2 (AllowCreationConflict 2) = true
  ∧ overwriteConflictAllowed 1 (AllowOverwriteConflict 1) = true
  ∧ creationConflictAllowed 2 (AllowOverwriteConflict 1) = false
  ∧ overwriteConflictAllowed 1 (AllowCreationConflict 2) = false
  ∧ creationConflictAllowed 2 Default = false
  ∧ overwriteConflictAllowed 1 Default = false.
Proof.
  apply (allowances_are_the_bits_of_the_strategy 1 2
           (AllowOverwriteConflict 1) (AllowCreationConflict 2)); lia.
Defined.

(** ** What a directory lists and what a visit reaches *)

Lemma join_length (p : Path) (f : PathFragment) : length (join p f) = Datatypes.S (length p).
Proof. unfold join. rewrite length_app. simpl. lia. Qed.

Lemma join_inj (p : Path) (f g : PathFragment) : join p f = join p g → f = g.
Proof. unfold join. intros Heq. apply app_inv_head in Heq. by simplify_eq. Qed.

Lemma below_join_self (p : Path) (f : PathFragment) : below p (join p f) = true.
Proof.
  unfold below. apply andb_true_iff. split.
  - apply bool_decide_eq_true. by exists [f].
  - apply negb_true_iff, bool_decide_eq_false. intros Heq.
    apply (f_equal length) in Heq. rewrite join_length in Heq. lia.
Qed.

(** A path below [p] is the child of [p] it goes through or lies below
    that child. *)
Lemma below_child (p q : Path) :
  below p q = true →
  ∃ f, q !! length p = Some f ∧ (q = join p f ∨ below (join p f) q = true).
Proof.
  intros (x & k & ->)%below_true. exists x. split.
  - by rewrite lookup_app_r, Nat.sub_diag by lia.
  - destruct k as [|y k]; [by left|]. right. apply below_true. exists y, k.
    unfold join. by rewrite <- app_assoc.
Qed.

Lemma below_join (p q : Path) (f : PathFragment) :
  below (join p f) q = true → below p q = true ∧ q !! length p = Some f.
Proof.
  intros (x & k & ->)%below_true. unfold join. rewrite <- app_assoc. simpl. split.
  - apply below_true. by exists f, (x :: k).
  - by rewrite lookup_app_r, Nat.sub_diag by lia.
Qed.

Lemma host_list_elem (m : FileMap) (p : Path) (f : PathFragment) :
  f ∈ host_list m p ↔ ∃ q, is_Some (m !! q) ∧ below p q = true ∧ q !! length p = Some f.
Proof.
  unfold host_list. rewrite elem_of_remove_dups, list_elem_of_omap. split.
  - intros (q & Hq & Hchild). apply list_elem_of_fmap in Hq as ([q' c] & -> & Hq).
    apply elem_of_map_to_list in Hq. simpl in *. unfold child_of in Hchild.
    destruct (below p q') eqn:Hb; [|done]. exists q'. split; [by eexists|]. by split.
  - intros (q & [c Hq] & Hb & Hf). exists q. split.
    + apply list_elem_of_fmap. exists (q, c). split; [done|]. by apply elem_of_map_to_list.
    + unfold child_of. by rewrite Hb.
Qed.

Lemma dir_files_elem (m : FileMap) (p : Path) (f : PathFragment) :
  f ∈ dir_files m p ↔ is_Some (m !! join p f).
Proof.
  unfold dir_files. rewrite list_elem_of_In, filter_In, <- list_elem_of_In, host_isFile_true.
  split; [by intros [_ ?]|]. intros Hf. split; [|done].
  apply host_list_elem. exists (join p f). split; [done|]. split; [apply below_join_self|].
  unfold join. by rewrite lookup_app_r, Nat.sub_diag by lia.
Qed.

Lemma dir_dirs_elem (m : FileMap) (p : Path) (d : PathFragment) :
  d ∈ dir_dirs m p ↔ host_isDirectory m (join p d) = true.
Proof.
  unfold dir_dirs. rewrite list_elem_of_In, filter_In, <- list_elem_of_In.
  split; [by intros [_ ?]|]. intros Hd. split; [|done].
  apply host_isDirectory_true in Hd as (q & Hq & Hb).
  apply below_join in Hb as [Hb Hf]. apply host_list_elem. by exists q.
Qed.

Lemma host_list_NoDup (m : FileMap) (p : Path) : NoDup (host_list m p).
Proof. apply NoDup_remove_dups. Qed.

Lemma NoDup_List_filter {A} (f : A → bool) (l : list A) : NoDup l → NoDup (List.filter f l).
Proof.
  induction 1 as [|x l Hx Hl IH]; simpl; [constructor|].
  destruct (f x); [|done]. constructor; [|done].
  rewrite list_elem_of_In, filter_In, <- list_elem_of_In. by intros [? _].
Qed.

Lemma dir_files_NoDup (m : FileMap) (p : Path) : NoDup (dir_files m p).
Proof. apply NoDup_List_filter, host_list_NoDup. Qed.

Lemma dir_dirs_NoDup (m : FileMap) (p : Path) : NoDup (dir_dirs m p).
Proof. apply NoDup_List_filter, host_list_NoDup. Qed.

(** What the order of a directory holds is a file below the directory. *)
Lemma visit_order_sound (fuel : nat) (m : FileMap) (p q : Path) :
  q ∈ visit_order fuel m p → is_Some (m !! q) ∧ below p q = true.
Proof.
  revert p. induction fuel as [|fuel IH]; intros p; simpl; [by intros ?%elem_of_nil|].
  rewrite elem_of_app. intros [Hq|Hq].
  - apply list_elem_of_fmap in Hq as (f & -> & Hf). split; [by apply dir_files_elem|].
    apply below_join_self.
  - apply list_elem_of_In, in_flat_map in Hq as (d & _ & Hq).
    apply list_elem_of_In, IH in Hq as [Hfile Hb]. split; [done|].
    eapply below_prefix; [|done]. by exists [d].
Qed.

(** Every file below the directory is in its order, when the order is
    taken as deep as the files go. *)
Lemma visit_order_complete (fuel : nat) (m : FileMap) (p q : Path) :
  depth m - length p < fuel →
  is_Some (m !! q) → below p q = true → q ∈ visit_order fuel m p.
Proof.
  revert p. induction fuel as [|fuel IH]; intros p Hfuel Hq Hb; [lia|]. simpl.
  apply elem_of_app. destruct (below_child p q Hb) as (f & Hf & [->|Hbelow]).
  - left. apply list_elem_of_fmap. exists f. split; [done|]. by apply dir_files_elem.
  - right. apply list_elem_of_In, in_flat_map. exists f.
    assert (f ∈ dir_dirs m p) as Hd.
    { apply dir_dirs_elem, host_isDirectory_true. by exists q. }
    split; [by apply list_elem_of_In|]. apply list_elem_of_In, IH; [|done..].
    apply dir_dirs_depth in Hd. rewrite join_length. lia.
Qed.

Lemma NoDup_flat_map {A B} (f : A → list B) (l : list A) :
  NoDup l →
  (∀ x, x ∈ l → NoDup (f x)) →
  (∀ x y z, x ∈ l → y ∈ l → z ∈ f x → z ∈ f y → x = y) →
  NoDup (flat_map f l).
Proof.
  induction 1 as [|x l Hx Hl IH]; intros Heach Hapart; simpl; [constructor|].
  apply NoDup_app. split; [apply Heach, list_elem_of_here|]. split.
  - intros z Hz Hin. apply list_elem_of_In, in_flat_map in Hin as (y & Hy & Hzy).
    apply list_elem_of_In in Hy, Hzy.
    assert (x = y) as <-; [|done].
    eapply Hapart; [apply list_elem_of_here|by apply list_elem_of_further|done..].
  - apply IH.
    + intros y Hy. by apply Heach, list_elem_of_further.
    + intros y1 y2 z Hy1 Hy2. apply Hapart; by apply list_elem_of_further.
Qed.

Lemma visit_order_NoDup (fuel : nat) (m : FileMap) (p : Path) : NoDup (visit_order fuel m p).
Proof.
  revert p. induction fuel as [|fuel IH]; intros p; simpl; [constructor|].
  apply NoDup_app. split; [|split].
  - apply NoDup_fmap_2_strong; [|apply dir_files_NoDup].
    intros f g _ _. apply join_inj.
  - intros q Hq Hin. apply list_elem_of_fmap in Hq as (f & -> & _).
    apply list_elem_of_In, in_flat_map in Hin as (d & _ & Hin).
    apply list_elem_of_In, visit_order_sound in Hin as [_ Hb].
    apply below_length in Hb. rewrite !join_length in Hb. lia.
  - apply NoDup_flat_map; [apply dir_dirs_NoDup|by intros|].
    intros d1 d2 q _ _ [_ H1]%visit_order_sound [_ H2]%visit_order_sound.
    apply below_join in H1 as [_ H1]. apply below_join in H2 as [_ H2]. congruence.
Qed.

(** X13: on a tree where no file lies below another file, [visit] with a
    visitor that does not throw calls it on every file of the tree and on
    nothing else, once on each, and leaves the files of every tree as
    they are. *)
Theorem visit_calls_the_visitor_once_on_every_file {S}
    (σ : Store) (this : nat) (visitor : FileVisitor S) (s : S) :
  well_formed (files σ this) → cache_ok σ this →
  (∀ p entry s0, (visitor p entry s0).2 = None) →
  ∃ σ' s' log,
    visit this (traced visitor) (σ, (s, [])) = Ok tt (σ', (s', log))
    ∧ same_files σ σ'
    ∧ NoDup log
    ∧ ∀ p, p ∈ log ↔ is_Some (files σ this !! p).
Proof.
  intros Hwf Hok Hquiet.
  destruct (visit_eq this (traced visitor) σ (s, []) Hwf Hok) as (σ' & Hsame & Hvisit).
  rewrite run_traced_all in Hvisit by done. simpl in Hvisit.
  eexists σ', _, _. split; [exact Hvisit|]. split; [done|]. split.
  - apply visit_order_NoDup.
  - intros p. split.
    + by intros [Hp _]%visit_order_sound.
    + intros Hp. apply visit_order_complete; [simpl; lia|done|].
      apply below_true. destruct p as [|x k]; [|by exists x, k].
      destruct Hwf as [Hroot _]. rewrite Hroot in Hp. by destruct Hp.
Qed.

Lemma visit_calls_the_visitor_once_on_every_file_witness :
  ∃ σ' s' log,
    visit 0 (traced quiet) (store_a_dir_b, (tt, [])) = Ok tt (σ', (s', log))
    ∧ same_files store_a_dir_b σ'
    ∧ NoDup log
    ∧ ∀ p, p ∈ log ↔ is_Some (files store_a_dir_b 0 !! p).
Proof.
  apply (visit_calls_the_visitor_once_on_every_file store_a_dir_b 0 quiet tt).
  - apply well_formedb_true. vm_compute. reflexivity.
  - apply cache_ok_empty. intros t Ht. vm_compute in Ht. by simplify_eq.
  - done.
Defined.

(** X14: on a tree where no file lies below another file, [subfiles]
    and [subdirs] of a directory entry split what the directory lists:
    every listed name is in one of them and none is in both, and none is
    listed twice.  [file] gives the entry of each name of [subfiles],
    under the path of the directory joined with the name, and throws
    [PathIsDirectoryException] on each name of [subdirs]. *)
Theorem subfiles_and_subdirs_split_the_listing
    (σ : Store) (this : nat) (entry : HostDirEntry) :
  well_formed (files σ this) →
  ∃ fs ds,
    subfiles this entry σ = Ok fs σ
    ∧ subdirs this entry σ = Ok ds σ
    ∧ NoDup fs ∧ NoDup ds
    ∧ (∀ name, name ∈ host_list (files σ this) (dir_path entry) ↔ name ∈ fs ∨ name ∈ ds)
    ∧ (∀ name, name ∈ fs → name ∉ ds)
    ∧ (∀ name, name ∈ fs →
         ∃ content,
           files σ this !! join (dir_path entry) name = Some content
           ∧ file this entry name σ
             = Ok (Some (LazyFileEntry (join (dir_path entry) name) content)) σ)
    ∧ (∀ name, name ∈ ds →
         file this entry name σ
         = Throw (PathIsDirectoryException (path_string (join (dir_path entry) name))) σ).
Proof.
  intros Hwf. set (m := files σ this). set (p := dir_path entry).
  exists (dir_files m p), (dir_dirs m p).
  split; [done|]. split; [done|]. split; [apply dir_files_NoDup|].
  split; [apply dir_dirs_NoDup|]. split; [|split; [|split]].
  - intros name. split.
    + intros (q & Hq & Hb & Hname)%host_list_elem.
      destruct (below_child p q Hb) as (f & Hf & Hcase). simplify_eq.
      destruct Hcase as [->|Hbelow].
      * left. by apply dir_files_elem.
      * right. apply dir_dirs_elem, host_isDirectory_true. by exists q.
    + unfold dir_files, dir_dirs. rewrite !list_elem_of_In, !filter_In. tauto.
  - intros name Hf%dir_files_elem Hd%dir_dirs_elem.
    destruct Hwf as [_ Hwf]. rewrite Hwf in Hd by done. done.
  - intros name Hf%dir_files_elem. destruct Hf as [content Hf]. exists content.
    split; [done|]. unfold file. fold p. rewrite get_at_eq. fold m.
    destruct Hwf as [_ Hwf]. rewrite Hwf by by eexists. by rewrite Hf.
  - intros name Hd%dir_dirs_elem. unfold file. fold p. rewrite get_at_eq. fold m.
    by rewrite Hd.
Qed.

Lemma subfiles_and_subdirs_split_the_listing_witness :
  ∃ fs ds,
    subfiles 0 (orphan_entry []) store_a_dir_b = Ok fs store_a_dir_b
    ∧ subdirs 0 (orphan_entry []) store_a_dir_b = Ok ds store_a_dir_b
    ∧ NoDup fs ∧ NoDup ds
    ∧ (∀ name, name ∈ host_list (files store_a_dir_b 0) [] ↔ name ∈ fs ∨ name ∈ ds)
    ∧ (∀ name, name ∈ fs → name ∉ ds)
    ∧ (∀ name, name ∈ fs →
         ∃ content,
           files store_a_dir_b 0 !! join [] name = Some content
           ∧ file 0 (orphan_entry []) name store_a_dir_b
             = Ok (Some (LazyFileEntry (join [] name) content)) store_a_dir_b)
    ∧ (∀ name, name ∈ ds →
         file 0 (orphan_entry []) name store_a_dir_b
         = Throw (PathIsDirectoryException (path_string (join [] name))) store_a_dir_b).
Proof.
  apply (subfiles_and_subdirs_split_the_listing store_a_dir_b 0 (orphan_entry [])).
  apply well_formedb_true. vm_compute. reflexivity.
Defined.

(** ** Paths as the methods take them *)

(** X15: the methods take a path under any spelling: a path and the
    normalized path it stands for give the same [exists], [get] and
    [read].  So the path of an entry that [get] has given leads back to
    that entry, whatever string it was asked for with. *)
Theorem the_path_of_an_entry_leads_back_to_the_entry
    (σ σ' : Store) (this : nat) (path : string) (entry : FileEntry) :
  get this path σ = Ok (Some entry) σ' →
  σ' = σ
  ∧ entry_path entry = _normalizePath path
  ∧ get this (path_string (entry_path entry)) σ = Ok (Some entry) σ
  ∧ read this (path_string (entry_path entry)) σ = Ok (Some (entry_content entry)) σ
  ∧ read this path σ = Ok (Some (entry_content entry)) σ
  ∧ exists_ this (path_string (entry_path entry)) σ = Ok true σ
  ∧ exists_ this path σ = Ok true σ.
Proof.
  unfold get at 1. rewrite get_at_eq.
  destruct (host_isDirectory (files σ this) (_normalizePath path)) eqn:Hdir; [done|].
  destruct (files σ this !! _normalizePath path) as [c|] eqn:Hc; [|done].
  intros [= <- <-]. simpl. split; [done|]. split; [done|].
  rewrite !read_eq, !exists_eq. unfold get.
  rewrite get_at_eq, !_normalizePath_idempotent, Hdir, Hc.
  rewrite (proj2 (host_isFile_true _ _)) by by eexists. done.
Qed.

Lemma the_path_of_an_entry_leads_back_to_the_entry_witness :
  entry_path (LazyFileEntry ["dir"; "b"] "2") = _normalizePath "dir/x/..//./b/"
  ∧ get 0 (path_string ["dir"; "b"]) store_a_dir_b
    = Ok (Some (LazyFileEntry ["dir"; "b"] "2")) store_a_dir_b
  ∧ read 0 (path_string ["dir"; "b"]) store_a_dir_b = Ok (Some "2") store_a_dir_b
  ∧ read 0 "dir/x/..//./b/" store_a_dir_b = Ok (Some "2") store_a_dir_b
  ∧ exists_ 0 (path_string ["dir"; "b"]) store_a_dir_b = Ok true store_a_dir_b
  ∧ exists_ 0 "dir/x/..//./b/" store_a_dir_b = Ok true store_a_dir_b.
Proof.
  apply (the_path_of_an_entry_leads_back_to_the_entry store_a_dir_b store_a_dir_b 0
           "dir/x/..//./b/" (LazyFileEntry ["dir"; "b"] "2")).
  reflexivity.
Defined.

(** * [migrations/update-6] *)

(** X16: [getConfigPath] changes nothing.  It gives [.angular-cli.json]
    when the tree has that file and [angular-cli.json] when it has only
    that one, and throws [SchematicsException] exactly when the tree has
    neither.  On a tree where no file lies below another file, [read] on
    the path it gives is never null: it gives the content of the file. *)
Theorem getConfigPath_gives_a_file_that_read_finds (σ : Store) (tree : nat) :
  well_formed (files σ tree) →
  match getConfigPath tree σ with
  | Ok configPath σ' =>
      σ' = σ
      ∧ (configPath = [".angular-cli.json"]
         ∨ configPath = ["angular-cli.json"]
           ∧ exists_ tree ".angular-cli.json" σ = Ok false σ)
      ∧ exists_ tree (path_string configPath) σ = Ok true σ
      ∧ ∃ content, files σ tree !! configPath = Some content
                   ∧ read tree (path_string configPath) σ = Ok (Some content) σ
  | Throw e σ' =>
      σ' = σ
      ∧ e = SchematicsException "Could not find configuration file"
      ∧ exists_ tree ".angular-cli.json" σ = Ok false σ
      ∧ exists_ tree "angular-cli.json" σ = Ok false σ
  | Exhausted => False
  end.
Proof.
  intros [_ Hwf]. unfold getConfigPath, and_then, bind.
  change (normalize ".angular-cli.json") with [".angular-cli.json"].
  change (normalize "angular-cli.json") with ["angular-cli.json"].
  rewrite !exists_eq.
  change (_normalizePath (path_string [".angular-cli.json"])) with [".angular-cli.json"].
  change (_normalizePath (path_string ["angular-cli.json"])) with ["angular-cli.json"].
  change (_normalizePath ".angular-cli.json") with [".angular-cli.json"].
  change (_normalizePath "angular-cli.json") with ["angular-cli.json"].
  assert (∀ p : list string,
            _normalizePath (path_string p) = p →
            host_isFile (files σ tree) p = true →
            exists_ tree (path_string p) σ = Ok true σ
            ∧ ∃ content, files σ tree !! p = Some content
                         ∧ read tree (path_string p) σ = Ok (Some content) σ) as Hfound.
  { intros p Hp Hfile. rewrite exists_eq, read_eq, Hp, Hfile. split; [done|].
    apply host_isFile_true in Hfile as [content Hfile]. exists content.
    rewrite Hwf by by eexists. by rewrite Hfile. }
  destruct (host_isFile (files σ tree) [".angular-cli.json"]) eqn:Hdot.
  - unfold ret. split; [done|]. split; [by left|]. by apply Hfound.
  - rewrite exists_eq.
    change (_normalizePath (path_string ["angular-cli.json"])) with ["angular-cli.json"].
    destruct (host_isFile (files σ tree) ["angular-cli.json"]) eqn:Hplain.
    + unfold ret. split; [done|]. split; [by right|]. by apply Hfound.
    + by unfold throw.
Qed.

Lemma getConfigPath_gives_a_file_that_read_finds_witness :
  let σ := [mkHostTree EmptyBackend
              [create_record ["angular-cli.json"] "{}"; create_record ["src"; "main.ts"] ""] ∅] in
  getConfigPath 0 σ = Ok ["angular-cli.json"] σ
  ∧ read 0 (path_string ["angular-cli.json"]) σ = Ok (Some "{}") σ.
Proof.
  intros σ.
  assert (well_formed (files σ 0)) as Hwf by (apply well_formedb_true; vm_compute; reflexivity).
  assert (getConfigPath 0 σ = Ok ["angular-cli.json"] σ) as Hrun by reflexivity.
  pose proof (getConfigPath_gives_a_file_that_read_finds σ 0 Hwf) as Hfound.
  rewrite Hrun in Hfound. split; [done|].
  destruct Hfound as (_ & _ & _ & content & Hcontent & Hread).
  rewrite Hread. vm_compute in Hcontent. by rewrite Hcontent.
Defined.

(** ** [removeDupes] *)

Lemma indexOf_ge (items : list string) (item : string) : (-1 ≤ indexOf items item)%Z.
Proof.
  induction items as [|x rest IH]; simpl; [lia|].
  destruct (String.eqb x item); [lia|].
  destruct (Z.eqb_spec (indexOf rest item) (-1)); lia.
Qed.

(** [indexOf] gives [-1] exactly for the items that are not there. *)
Lemma indexOf_absent (items : list string) (item : string) :
  indexOf items item = (-1)%Z ↔ item ∉ items.
Proof.
  induction items as [|x rest IH]; simpl.
  - split; [intros _; apply not_elem_of_nil|done].
  - rewrite not_elem_of_cons. destruct (String.eqb_spec x item) as [->|Hne].
    + split; [lia|]. by intros [? _].
    + pose proof (indexOf_ge rest item).
      destruct (Z.eqb_spec (indexOf rest item) (-1)) as [Heq|Hneq].
      * split; [|done]. intros _. split; [done|]. by apply IH.
      * split; [lia|]. intros [_ Hrest]. by apply IH in Hrest.
Qed.

Lemma removeDupes_step (newItems : list string) (item : string) :
  (if Z.eqb (indexOf newItems item) (-1) then newItems ++ [item] else newItems)
  = if decide (item ∈ newItems) then newItems else newItems ++ [item].
Proof.
  destruct (Z.eqb_spec (indexOf newItems item) (-1)) as [Heq|Hneq].
  - apply indexOf_absent in Heq. by rewrite decide_False.
  - rewrite decide_True; [done|]. destruct (decide (item ∈ newItems)); [done|].
    by apply indexOf_absent in n.
Qed.

(** The [reduce], from any array with no item twice. *)
Lemma removeDupes_from (items newItems : list string) :
  NoDup newItems →
  ∃ pushed,
    fold_left
      (λ newItems item,
         if Z.eqb (indexOf newItems item) (-1) then newItems ++ [item] else newItems)
      items newItems
    = newItems ++ pushed
    ∧ NoDup (newItems ++ pushed)
    ∧ (∀ item, item ∈ newItems ++ pushed ↔ item ∈ newItems ∨ item ∈ items)
    ∧ pushed `sublist_of` items
    ∧ (NoDup (newItems ++ items) → pushed = items).
Proof.
  revert newItems. induction items as [|x items IH]; intros newItems Hnew.
  - exists []. rewrite app_nil_r. simpl. split; [done|]. split; [done|].
    split; [|by split]. intros item. rewrite elem_of_nil. tauto.
  - simpl fold_left. rewrite removeDupes_step.
    destruct (decide (x ∈ newItems)) as [Hin|Hout].
    + destruct (IH newItems Hnew) as (pushed & -> & Hnodup & Helem & Hsub & Hsame).
      exists pushed. split; [done|]. split; [done|]. split; [|split].
      * intros item. rewrite Helem, elem_of_cons.
        split; [tauto|]. intros [?|[->|?]]; tauto.
      * by apply sublist_cons.
      * intros Hall. apply NoDup_app in Hall as (_ & Hapart & _).
        exfalso. apply (Hapart x Hin), list_elem_of_here.
    + destruct (IH (newItems ++ [x])) as (pushed & -> & Hnodup & Helem & Hsub & Hsame).
      { apply NoDup_app. split; [done|]. split; [|apply NoDup_singleton].
        intros y Hy ->%list_elem_of_singleton. done. }
      exists (x :: pushed). rewrite <- !app_assoc in *. simpl in *.
      split; [done|]. split; [done|]. split; [|split].
      * intros item. rewrite Helem, elem_of_app, list_elem_of_singleton, elem_of_cons. tauto.
      * by apply sublist_skip.
      * intros Hall. f_equal. by apply Hsame.
Qed.

(** X17: [removeDupes] gives the items of the array with none twice:
    the same items, each where it comes first, in the order of the
    array.  What it gives for the start of an array is the start of what
    it gives for the whole array; it changes nothing in an array that has
    no item twice, and running it again changes nothing. *)
Theorem removeDupes_keeps_the_first_of_each_item (items more : list string) :
  NoDup (removeDupes items)
  ∧ (∀ item, item ∈ removeDupes items ↔ item ∈ items)
  ∧ removeDupes items `sublist_of` items
  ∧ removeDupes items `prefix_of` removeDupes (items ++ more)
  ∧ (removeDupes items = items ↔ NoDup items)
  ∧ removeDupes (removeDupes items) = removeDupes items.
Proof.
  unfold removeDupes.
  destruct (removeDupes_from items []) as (pushed & Hrun & Hnodup & Helem & Hsub & Hsame);
    [constructor|].
  simpl in *. rewrite fold_left_app, !Hrun.
  split; [done|]. split; [|split; [done|split; [|split]]].
  - intros item. rewrite Helem, elem_of_nil. tauto.
  - destruct (removeDupes_from more pushed Hnodup) as (rest & -> & _). by exists rest.
  - split; [by intros <-|apply Hsame].
  - destruct (removeDupes_from pushed []) as (again & -> & _ & _ & _ & Hagain); [constructor|].
    simpl in *. by apply Hagain.
Qed.

Example removeDupes_example :
  removeDupes ["src/tsconfig.app.json"; "src/tsconfig.spec.json"; "src/tsconfig.app.json"]
  = ["src/tsconfig.app.json"; "src/tsconfig.spec.json"].
Proof. reflexivity. Qed.

(** ** The default project *)

Lemma getDefaultAppNamePrefix_not_empty (config : CliConfig) :
  getDefaultAppNamePrefix config ≠ "".
Proof.
  unfold getDefaultAppNamePrefix, truthy.
  destruct (config_project config) as [project|]; [|done].
  destruct (project_name project) as [name|]; [|done].
  by destruct (String.eqb_spec name "").
Qed.

(** X18: [extractDefaultProject] gives null exactly when the
    configuration has no first app.  Otherwise it gives the name of the
    first app when that is a name and not the empty string, and else the
    name of the project when that is one, and else ['app']: the name it
    gives is never the empty string. *)
Theorem extractDefaultProject_gives_no_empty_name (config : CliConfig) :
  (extractDefaultProject config = None
   ↔ config_apps config = None ∨ config_apps config = Some [])
  ∧ extractDefaultProject config ≠ Some ""
  ∧ getDefaultAppNamePrefix config ≠ ""
  ∧ (∀ app rest, config_apps config = Some (app :: rest) →
       extractDefaultProject config
       = Some (if truthy (app_name app) then default "" (app_name app)
               else if truthy (config_project config ≫= project_name)
                    then default "" (config_project config ≫= project_name)
                    else "app")).
Proof.
  pose proof (getDefaultAppNamePrefix_not_empty config) as Hprefix.
  unfold extractDefaultProject. split; [|split; [|split]].
  - destruct (config_apps config) as [[|app rest]|];
      (split; [intros ?; simplify_eq; auto|intros [?|?]; simplify_eq; auto]).
  - destruct (config_apps config) as [[|app rest]|]; [done| |done].
    unfold or_else. destruct (app_name app) as [name|]; [|congruence].
    destruct (String.eqb_spec name ""); congruence.
  - done.
  - intros app rest ->. f_equal. unfold or_else, getDefaultAppNamePrefix, truthy.
    destruct (app_name app) as [name|]; simpl.
    + destruct (String.eqb name ""); simpl; [|done].
      destruct (config_project config) as [project|]; simpl; [|done].
      destruct (project_name project) as [pname|]; simpl; [|done].
      by destruct (String.eqb pname "").
    + destruct (config_project config) as [project|]; simpl; [|done].
      destruct (project_name project) as [pname|]; simpl; [|done].
      by destruct (String.eqb pname "").
Qed.

Lemma extractDefaultProject_gives_no_empty_name_witness :
  extractDefaultProject
    (mkCliConfig (Some (mkProjectConfig (Some "shop")))
                 (Some [mkAppConfig (Some ""); mkAppConfig (Some "admin")]))
  = Some "shop".
Proof.
  destruct (extractDefaultProject_gives_no_empty_name
              (mkCliConfig (Some (mkProjectConfig (Some "shop")))
                 (Some [mkAppConfig (Some ""); mkAppConfig (Some "admin")])))
    as (_ & _ & _ & Hname).
  rewrite (Hname (mkAppConfig (Some "")) [mkAppConfig (Some "admin")]); reflexivity.
Defined.

(** * [getDir] and the cache *)

Lemma getDir_rev_below_file (this : nat) (q rk : list string) (σ : Store) :
  is_Some (files σ this !! q) →
  (∀ rk', rk' `suffix_of` rk → rk' ≠ [] →
     files σ this !! (q ++ rev rk') = None
     ∧ cache_lookup σ this (q ++ rev rk') = None) →
  getDir_rev this (rk ++ rev q) σ = Throw (PathIsFileException (path_string q)) σ.
Proof.
  intros Hq. induction rk as [|x rk IH]; intros Hfree; rewrite getDir_rev_eq.
  - simpl. rewrite rev_involutive. by rewrite (proj2 (host_isFile_true _ _)).
  - assert (rev ((x :: rk) ++ rev q) = q ++ rev (x :: rk)) as ->.
    { by rewrite rev_app_distr, rev_involutive. }
    destruct (Hfree (x :: rk)) as [Hfile Hcache]; [done..|].
    rewrite (proj2 (host_isFile_false _ _)) by done. rewrite Hcache. simpl app.
    cbv iota. rewrite IH; [done|]. intros rk' Hsuffix. apply Hfree. by apply suffix_cons_r.
Qed.

(** X19: what [getDir] gives below a file depends on what it was asked
    before.  On a path below a file, with nothing in the cache for the
    path or for a path between the file and it, [getDir] throws
    [PathIsFileException] with the file's path and changes nothing.  With
    an entry in the cache for the path it gives that entry, also when a
    file has come to lie above the path since the entry was made. *)
Theorem getDir_below_a_file_throws_unless_cached
    (σ : Store) (this : nat) (path : string) (q : Path) :
  q `prefix_of` _normalizePath path →
  is_Some (files σ this !! q) →
  (∀ r, below q r = true → r `prefix_of` _normalizePath path → files σ this !! r = None) →
  ((∀ r, below q r = true → r `prefix_of` _normalizePath path →
         cache_lookup σ this r = None) →
   getDir this path σ = Throw (PathIsFileException (path_string q)) σ)
  ∧ (∀ entry, below q (_normalizePath path) = true →
       cache_lookup σ this (_normalizePath path) = Some entry →
       getDir this path σ = Ok entry σ).
Proof.
  intros [k Hk] Hq Hfiles. unfold getDir, getDir_at. rewrite Hk in *. split.
  - intros Hcache. rewrite rev_app_distr.
    apply getDir_rev_below_file; [done|]. intros rk' [front Hfront] Hne.
    assert (k = rev rk' ++ rev front) as ->.
    { rewrite <- rev_app_distr, <- Hfront. by rewrite rev_involutive. }
    assert (below q (q ++ rev rk') = true) as Hbelow.
    { apply below_true. destruct (rev rk') as [|y l] eqn:Hrev; [|by exists y, l].
      apply (f_equal (@rev string)) in Hrev. rewrite rev_involutive in Hrev. done. }
    assert ((q ++ rev rk') `prefix_of` (q ++ rev rk' ++ rev front)) as Hprefix.
    { exists (rev front). by rewrite <- app_assoc. }
    split; [by apply Hfiles|by apply Hcache].
  - intros entry Hbelow Hentry. rewrite getDir_rev_eq, rev_involutive.
    rewrite (proj2 (host_isFile_false _ _)) by by apply Hfiles.
    by rewrite Hentry.
Qed.

Lemma getDir_below_a_file_throws_unless_cached_witness :
  getDir 0 "/a/b/c" store_a_dir_b = Throw (PathIsFileException "/a") store_a_dir_b
  ∧ ∃ entry σ1 σ2,
      getDir 0 "/x/y" store_a_dir_b = Ok entry σ1
      ∧ create 0 "/x" "3" σ1 = Ok tt σ2
      ∧ exists_ 0 "/x" σ2 = Ok true σ2
      ∧ getDir 0 "/x/y" σ2 = Ok entry σ2.
Proof.
  split.
  - refine (proj1 (getDir_below_a_file_throws_unless_cached store_a_dir_b 0 "/a/b/c" ["a"]
                     _ _ _) _).
    + by exists ["b"; "c"].
    + by eexists.
    + intros r (x & k & ->)%below_true [k' Hk'].
      change (_normalizePath "/a/b/c") with ["a"; "b"; "c"] in Hk'.
      simpl in Hk'. injection Hk' as <- Hk'.
      destruct k as [|y k]; [vm_compute; reflexivity|].
      injection Hk' as <- Hk'. destruct k; [vm_compute; reflexivity|discriminate Hk'].
    + intros r _ _. reflexivity.
  - eexists _, _, _. split; [vm_compute; reflexivity|].
    split; [vm_compute; reflexivity|]. split; [vm_compute; reflexivity|].
    refine (proj2 (getDir_below_a_file_throws_unless_cached _ 0 "/x/y" ["x"] _ _ _) _ _ _).
    + by exists ["y"].
    + vm_compute. by eexists.
    + intros r (x & k & ->)%below_true [k' Hk'].
      change (_normalizePath "/x/y") with ["x"; "y"] in Hk'.
      simpl in Hk'. injection Hk' as <- Hk'.
      destruct k; [vm_compute; reflexivity|discriminate Hk'].
    + vm_compute. reflexivity.
    + vm_compute. reflexivity.
Defined.
